(** * FeelUOwn application core ([feeluown/app.py])

    A shallow embedding of the session persistence ([App.load_state],
    [App.dump_state]), of the scoped action wrapper ([App.create_action]) and
    of the shutdown sequence ([_shutdown_app], [run_app_once]), together with
    the properties of these functions.

    Python objects that the module mutates (the player, the playlist, the
    state file, the logger) are fields of one explicit [World] record that is
    threaded through a small state-and-exception monad. *)

From Stdlib Require Import String Ascii List ZArith QArith Bool Arith Lia.
Import ListNotations.
Local Open Scope string_scope.
Local Open Scope list_scope.

(** ** JSON values and the state file

    [json.dump] writes the document piece by piece ([fp.write(chunk)] for each
    chunk the encoder yields) and [json.load] reads it back.  The file is
    modelled at the granularity of JSON lexemes: its content is a list of
    tokens.  A number is a rational; nothing below computes with it except the
    comparison with an enum ordinal. *)

Module Json.

#[warnings="-register-all"]
Inductive json : Type :=
| JNull
| JBool (b : bool)
| JNum (q : Q)
| JStr (s : string)
| JArr (items : list json)
| JObj (members : list (string * json)).

Inductive token : Type :=
| TNull
| TBool (b : bool)
| TNum (q : Q)
| TStr (s : string)
| TLBracket
| TRBracket
| TLBrace
| TRBrace
| TColon
| TComma
| TBad (c : ascii).   (* a character that starts no JSON lexeme *)

(** Induction principle that reaches the values nested in arrays and objects. *)
Fixpoint json_nested_ind (P : json -> Prop)
    (Hnull : P JNull) (Hbool : forall b, P (JBool b))
    (Hnum : forall q, P (JNum q)) (Hstr : forall s, P (JStr s))
    (Harr : forall l, Forall P l -> P (JArr l))
    (Hobj : forall l, Forall (fun kv => P (snd kv)) l -> P (JObj l))
    (j : json) {struct j} : P j :=
  match j with
  | JNull => Hnull
  | JBool b => Hbool b
  | JNum q => Hnum q
  | JStr s => Hstr s
  | JArr l =>
      Harr l ((fix go (l : list json) : Forall P l :=
                 match l with
                 | [] => Forall_nil _
                 | x :: r =>
                     Forall_cons _
                       (json_nested_ind P Hnull Hbool Hnum Hstr Harr Hobj x)
                       (go r)
                 end) l)
  | JObj l =>
      Hobj l ((fix go (l : list (string * json))
                 : Forall (fun kv => P (snd kv)) l :=
                 match l with
                 | [] => Forall_nil _
                 | (k, v) :: r =>
                     Forall_cons (P := fun kv => P (snd kv)) (k, v)
                       (json_nested_ind P Hnull Hbool Hnum Hstr Harr Hobj v)
                       (go r)
                 end) l)
  end.

(** *** Encoder: the token stream of [json.dump] *)

(** What follows the first element of a container: each further element is
    preceded by the item separator, then comes the closing bracket. *)
Fixpoint encode_rest (close : token) (chunks : list (list token))
  : list token :=
  match chunks with
  | [] => [close]
  | c :: r => TComma :: c ++ encode_rest close r
  end.

Definition encode_seq (open close : token) (chunks : list (list token))
  : list token :=
  match chunks with
  | [] => [open; close]
  | c :: r => open :: c ++ encode_rest close r
  end.

Fixpoint encode (j : json) : list token :=
  match j with
  | JNull => [TNull]
  | JBool b => [TBool b]
  | JNum q => [TNum q]
  | JStr s => [TStr s]
  | JArr l => encode_seq TLBracket TRBracket (map encode l)
  | JObj l =>
      encode_seq TLBrace TRBrace
        (map (fun kv => TStr (fst kv) :: TColon :: encode (snd kv)) l)
  end.

Definition encode_member (kv : string * json) : list token :=
  TStr (fst kv) :: TColon :: encode (snd kv).

(** *** Decoder: [json.load] *)

Fixpoint parse_value (fuel : nat) (ts : list token)
  : option (json * list token) :=
  match fuel with
  | O => None
  | S f =>
      match ts with
      | TNull :: r => Some (JNull, r)
      | TBool b :: r => Some (JBool b, r)
      | TNum q :: r => Some (JNum q, r)
      | TStr s :: r => Some (JStr s, r)
      | TLBracket :: TRBracket :: r => Some (JArr [], r)
      | TLBracket :: r =>
          match parse_value f r with
          | Some (v, r1) =>
              match parse_elems f r1 with
              | Some (vs, r2) => Some (JArr (v :: vs), r2)
              | None => None
              end
          | None => None
          end
      | TLBrace :: TRBrace :: r => Some (JObj [], r)
      | TLBrace :: TStr k :: TColon :: r =>
          match parse_value f r with
          | Some (v, r1) =>
              match parse_members f r1 with
              | Some (ms, r2) => Some (JObj ((k, v) :: ms), r2)
              | None => None
              end
          | None => None
          end
      | _ => None
      end
  end
with parse_elems (fuel : nat) (ts : list token)
  : option (list json * list token) :=
  match fuel with
  | O => None
  | S f =>
      match ts with
      | TRBracket :: r => Some ([], r)
      | TComma :: r =>
          match parse_value f r with
          | Some (v, r1) =>
              match parse_elems f r1 with
              | Some (vs, r2) => Some (v :: vs, r2)
              | None => None
              end
          | None => None
          end
      | _ => None
      end
  end
with parse_members (fuel : nat) (ts : list token)
  : option (list (string * json) * list token) :=
  match fuel with
  | O => None
  | S f =>
      match ts with
      | TRBrace :: r => Some ([], r)
      | TComma :: TStr k :: TColon :: r =>
          match parse_value f r with
          | Some (v, r1) =>
              match parse_members f r1 with
              | Some (ms, r2) => Some ((k, v) :: ms, r2)
              | None => None
              end
          | None => None
          end
      | _ => None
      end
  end.

(** [json.load]: the whole content must be one document; anything else
    (empty file, truncated document, trailing data) is a decode error. *)
Definition loads (ts : list token) : option json :=
  match parse_value (length ts) ts with
  | Some (v, []) => Some v
  | _ => None
  end.

End Json.

Import Json.

(** ** Exceptions and results *)

(** The exception classes that occur in [app.py].  [ActionError n] is the
    class that the [n]-th evaluation of [create_action] defines (the class
    statement is inside the function, so every call makes a new class).
    [KeyboardInterrupt] and [SystemExit] derive from [BaseException] only. *)
Inductive exc_class : Type :=
| FileNotFoundError
| JSONDecodeError
| KeyError
| TypeError
| ValueError
| ResolverNotFound
| NotReversible
| OSError
| RuntimeError
| ActionError (n : nat)
| KeyboardInterrupt
| SystemExit.

Inductive exn : Type := Exn (cls : exc_class) (msg : string).

(** [isinstance(e, Exception)] *)
Definition is_Exception (e : exn) : bool :=
  match e with
  | Exn KeyboardInterrupt _ | Exn SystemExit _ => false
  | _ => true
  end.

(** [str(e)] *)
Definition str (e : exn) : string := let (_, msg) := e in msg.

Inductive result (A : Type) : Type :=
| Ok (a : A)
| Raise (e : exn).
Arguments Ok {A} a.
Arguments Raise {A} e.

(** ** Enumerations of the player library *)

(** Modelled from the spec: [PlaybackMode] is imported from
    [fuocore.playlist], which is not among the sources; the state file stores
    the integer ordinal of the mode and [PlaybackMode(n)] maps an ordinal back
    (raising [ValueError] for any other value). *)
Inductive PlaybackMode : Type := one_loop | sequential | loop | random.

Definition PlaybackMode_value (m : PlaybackMode) : Z :=
  match m with
  | one_loop => 0
  | sequential => 1
  | loop => 2
  | random => 3
  end.

(** Modelled from the spec: the player's [state] attribute is an integer
    enum of the player library, dumped through [.value]. *)
Inductive State : Type := stopped | paused | playing.

Definition State_value (s : State) : Z :=
  match s with
  | stopped => 0
  | paused => 1
  | playing => 2
  end.

Definition Media := string.

(** [App.GuiMode] *)
Definition DaemonMode : Z := 0x0001.
Definition GuiMode : Z := 0x0010.
Definition CliMode : Z := 0x0100.

(** ** Dictionaries as [json.load] builds them *)

(** [d[k]] on the pairs of a JSON object: a later duplicate of a key
    overrides an earlier one. *)
Fixpoint dict_get (k : string) (ms : list (string * json)) : option json :=
  match ms with
  | [] => None
  | (k', v) :: r =>
      match dict_get k r with
      | Some x => Some x
      | None => if String.eqb k k' then Some v else None
      end
  end.

(** Keys in iteration order: each key once, at its first position. *)
Fixpoint dict_keys (ms : list (string * json)) (seen : list string)
  : list string :=
  match ms with
  | [] => []
  | (k, _) :: r =>
      if existsb (String.eqb k) seen then dict_keys r seen
      else k :: dict_keys r (k :: seen)
  end.

(** [state[k]] *)
Definition getitem (state : json) (k : string) : result json :=
  match state with
  | JObj ms =>
      match dict_get k ms with
      | Some v => Ok v
      | None => Raise (Exn KeyError k)
      end
  | _ => Raise (Exn TypeError "not subscriptable by a string")
  end.

Fixpoint chars (s : string) : list json :=
  match s with
  | EmptyString => []
  | String c r => JStr (String c EmptyString) :: chars r
  end.

(** [iter(v)]: what a [for] loop over a decoded JSON value visits. *)
Definition iterate (v : json) : result (list json) :=
  match v with
  | JArr l => Ok l
  | JStr s => Ok (chars s)
  | JObj ms => Ok (map JStr (dict_keys ms []))
  | _ => Raise (Exn TypeError "object is not iterable")
  end.

(** [PlaybackMode(v)] *)
Definition PlaybackMode_of (v : json) : result PlaybackMode :=
  let of_Q (q : Q) :=
    if Qeq_bool q 0 then Ok one_loop
    else if Qeq_bool q 1 then Ok sequential
    else if Qeq_bool q 2 then Ok loop
    else if Qeq_bool q 3 then Ok random
    else Raise (Exn ValueError "not a valid PlaybackMode") in
  match v with
  | JNum q => of_Q q
  | JBool b => of_Q (if b then 1 else 0)
  | _ => Raise (Exn ValueError "not a valid PlaybackMode")
  end.

Definition tab : string := String (ascii_of_nat 9) EmptyString.

Definition opt_eqb {A} (eqb : A -> A -> bool) (x y : option A) : bool :=
  match x, y with
  | Some a, Some b => eqb a b
  | None, None => true
  | _, _ => false
  end.

Definition is_Some {A} (x : option A) : bool :=
  match x with Some _ => true | None => false end.

(** ** The resolver contract

    [reverse] and [resolve] are imported from [fuocore.models]; the providers
    registered at run time decide what they return.  [resolve line = None]
    stands for [resolve(line)] raising [ResolverNotFound], and
    [reverse song = None] for [reverse(song, as_line=True)] raising because
    the provider of the song cannot export a reference.  Songs are compared
    with [==] / [!=], modelled as decidable equality. *)
Class Resolver : Type := {
  Song : Type;
  Song_eq_dec : forall a b : Song, {a = b} + {a <> b};
  resolve : string -> option Song;
  reverse : Song -> option string
}.

Section Model.

Context {R : Resolver}.

Definition Song_eqb (a b : Song) : bool :=
  if Song_eq_dec a b then true else false.

(** *** Observable effects *)

Inductive event : Type :=
| EvLogException (msg : string)        (* logger.exception(msg) *)
| EvShowMsg (msg : string)             (* self.show_msg(msg, ...) *)
| EvShowPlayerPlaylist                 (* ui...show_player_playlist() *)
| EvPause                              (* player.pause() *)
| EvResume                             (* player.resume() *)
| EvSetPlayRange (start : option Q)    (* player.set_play_range(start=...) *)
| EvLoadSong (song : Song)             (* player.load_song(song) *)
| EvStop                               (* player.stop() *)
| EvShutdown                           (* player.shutdown() *)
| EvOpenWrite                          (* open(STATE_FILE, 'w') *)
| EvForeign (n : nat)                  (* a receiver of another module ran *)
| EvTeardownAio                        (* Signal.teardown_aio_support() *)
| EvLoopStop                           (* loop.stop() *)
| EvLoopClose.                         (* loop.close() *)

(** Receivers of [player.media_about_to_changed].  The closure
    [before_media_change] of [load_state] captures the resolved song. *)
Inductive receiver : Type :=
| before_media_change_of (song : Song)
| foreign_receiver (n : nat).

(** Receivers of [app.about_to_shutdown]: the [lambda _: self.dump_state()]
    that [App.__init__] connects, and receivers connected by other modules,
    which run and may raise. *)
Inductive subscriber : Type :=
| dump_state_subscriber
| foreign_subscriber (n : nat) (raises : option exn).

(** *** The mutable objects

    [disk_budget] makes a failure of the storage device explicit: [None] is
    a device that accepts every write, [Some n] one that accepts [n] more
    chunks and then fails. *)

Record World : Type := mkWorld {
  app_mode : Z;                                   (* app.mode *)
  player_volume : Q;                              (* player.volume *)
  player_state : State;                           (* player.state *)
  player_position : option Q;                     (* player.position *)
  player_current_song : option Song;              (* player.current_song *)
  media_about_to_changed : list receiver;     (* player.media_about_to_changed *)
  playlist_playback_mode : PlaybackMode;          (* playlist.playback_mode *)
  playlist_songs : list Song;                     (* playlist.list() *)
  playlist_current_song : option Song;            (* playlist.current_song *)
  about_to_shutdown : list subscriber;            (* app.about_to_shutdown *)
  state_file : option (list token);           (* STATE_FILE; None: no such file *)
  disk_budget : option nat;                   (* writes the device still accepts *)
  action_classes : nat;                       (* ActionError classes so far *)
  events : list event                         (* effects, oldest first *)
}.

Definition set_player_volume (v : Q) (w : World) : World :=
  mkWorld (app_mode w) v (player_state w) (player_position w)
    (player_current_song w) (media_about_to_changed w)
    (playlist_playback_mode w) (playlist_songs w) (playlist_current_song w)
    (about_to_shutdown w) (state_file w) (disk_budget w) (action_classes w)
    (events w).

Definition set_media_about_to_changed (rs : list receiver) (w : World)
  : World :=
  mkWorld (app_mode w) (player_volume w) (player_state w) (player_position w)
    (player_current_song w) rs
    (playlist_playback_mode w) (playlist_songs w) (playlist_current_song w)
    (about_to_shutdown w) (state_file w) (disk_budget w) (action_classes w)
    (events w).

Definition set_playlist_playback_mode (m : PlaybackMode) (w : World)
  : World :=
  mkWorld (app_mode w) (player_volume w) (player_state w) (player_position w)
    (player_current_song w) (media_about_to_changed w)
    m (playlist_songs w) (playlist_current_song w)
    (about_to_shutdown w) (state_file w) (disk_budget w) (action_classes w)
    (events w).

Definition set_playlist_songs (l : list Song) (w : World) : World :=
  mkWorld (app_mode w) (player_volume w) (player_state w) (player_position w)
    (player_current_song w) (media_about_to_changed w)
    (playlist_playback_mode w) l (playlist_current_song w)
    (about_to_shutdown w) (state_file w) (disk_budget w) (action_classes w)
    (events w).

Definition set_playlist_current_song (s : option Song) (w : World) : World :=
  mkWorld (app_mode w) (player_volume w) (player_state w) (player_position w)
    (player_current_song w) (media_about_to_changed w)
    (playlist_playback_mode w) (playlist_songs w) s
    (about_to_shutdown w) (state_file w) (disk_budget w) (action_classes w)
    (events w).

Definition set_state_file (f : option (list token)) (w : World) : World :=
  mkWorld (app_mode w) (player_volume w) (player_state w) (player_position w)
    (player_current_song w) (media_about_to_changed w)
    (playlist_playback_mode w) (playlist_songs w) (playlist_current_song w)
    (about_to_shutdown w) f (disk_budget w) (action_classes w)
    (events w).

Definition set_disk_budget (b : option nat) (w : World) : World :=
  mkWorld (app_mode w) (player_volume w) (player_state w) (player_position w)
    (player_current_song w) (media_about_to_changed w)
    (playlist_playback_mode w) (playlist_songs w) (playlist_current_song w)
    (about_to_shutdown w) (state_file w) b (action_classes w)
    (events w).

Definition set_action_classes (n : nat) (w : World) : World :=
  mkWorld (app_mode w) (player_volume w) (player_state w) (player_position w)
    (player_current_song w) (media_about_to_changed w)
    (playlist_playback_mode w) (playlist_songs w) (playlist_current_song w)
    (about_to_shutdown w) (state_file w) (disk_budget w) n
    (events w).

Definition set_events (l : list event) (w : World) : World :=
  mkWorld (app_mode w) (player_volume w) (player_state w) (player_position w)
    (player_current_song w) (media_about_to_changed w)
    (playlist_playback_mode w) (playlist_songs w) (playlist_current_song w)
    (about_to_shutdown w) (state_file w) (disk_budget w) (action_classes w)
    l.

(** *** State and exception monad *)

Definition M (A : Type) : Type := World -> World * result A.

Definition ret {A} (a : A) : M A := fun w => (w, Ok a).

Definition raise {A} (e : exn) : M A := fun w => (w, Raise e).

Definition bind {A B} (m : M A) (k : A -> M B) : M B :=
  fun w =>
    match m w with
    | (w1, Ok a) => k a w1
    | (w1, Raise e) => (w1, Raise e)
    end.

Definition gets {A} (f : World -> A) : M A := fun w => (w, Ok (f w)).

Definition modify (f : World -> World) : M unit := fun w => (f w, Ok tt).

Definition lift {A} (r : result A) : M A := fun w => (w, r).

Definition emit_event (e : event) : M unit :=
  modify (fun w => set_events (events w ++ [e]) w).

(** [try: body finally: fin] *)
Definition try_finally {A} (body : M A) (fin : M unit) : M A :=
  fun w =>
    match body w with
    | (w1, Ok a) =>
        match fin w1 with
        | (w2, Ok _) => (w2, Ok a)
        | (w2, Raise e) => (w2, Raise e)
        end
    | (w1, Raise e) =>
        match fin w1 with
        | (w2, Ok _) => (w2, Raise e)
        | (w2, Raise e') => (w2, Raise e')
        end
    end.

End Model.

Declare Scope monad_scope.
Delimit Scope monad_scope with monad.
Notation "x <- m ;; k" := (bind m (fun x => k))
  (at level 61, m at next level, right associativity) : monad_scope.
Notation "m ;; k" := (bind m (fun _ => k))
  (at level 61, right associativity) : monad_scope.

From Stdlib Require DecimalString.

Section App.

Context {R : Resolver}.
Local Open Scope monad_scope.

(** *** Collaborators: logger, user interface, player *)

Definition logger_exception (msg : string) : M unit :=
  emit_event (EvLogException msg).

Definition show_msg (msg : string) : M unit := emit_event (EvShowMsg msg).

Definition show_player_playlist : M unit := emit_event EvShowPlayerPlaylist.

Definition player_pause : M unit := emit_event EvPause.
Definition player_resume : M unit := emit_event EvResume.
Definition player_stop : M unit := emit_event EvStop.
Definition player_shutdown : M unit := emit_event EvShutdown.
Definition player_load_song (song : Song) : M unit :=
  emit_event (EvLoadSong song).
Definition player_set_play_range (start : option Q) : M unit :=
  emit_event (EvSetPlayRange start).

(** [player.volume = v]; the attribute holds a number. *)
Definition player_set_volume (v : json) : M unit :=
  match v with
  | JNum q => modify (set_player_volume q)
  | _ => raise (Exn TypeError "volume is not a number")
  end.

(** The [start] argument of [set_play_range]: a number or [None]. *)
Definition as_start (v : json) : M (option Q) :=
  match v with
  | JNum q => ret (Some q)
  | JNull => ret None
  | _ => raise (Exn TypeError "start is not a number")
  end.

(** Modelled from the spec: [playlist.init_from(songs)] of the player
    library replaces the live playlist wholesale. *)
Definition playlist_init_from (songs : list Song) : M unit :=
  modify (set_playlist_songs songs).

(** *** The signal [player.media_about_to_changed] *)

Definition receiver_eqb (a b : receiver) : bool :=
  match a, b with
  | before_media_change_of s, before_media_change_of t => Song_eqb s t
  | foreign_receiver n, foreign_receiver m => Nat.eqb n m
  | _, _ => false
  end.

Fixpoint remove_first (r : receiver) (l : list receiver) : list receiver :=
  match l with
  | [] => []
  | x :: l' => if receiver_eqb r x then l' else x :: remove_first r l'
  end.

(** Modelled from the spec: [Signal.connect] of the event bus registers a
    subscriber after those already registered; [Signal.disconnect] removes
    it. *)
Definition connect (r : receiver) : M unit :=
  modify (fun w =>
            set_media_about_to_changed (media_about_to_changed w ++ [r]) w).

Definition disconnect (r : receiver) : M unit :=
  modify (fun w =>
            set_media_about_to_changed
              (remove_first r (media_about_to_changed w)) w).

(** The closure defined in [load_state]; [song] is the local variable of
    [load_state], which holds the resolved song by the time the closure is
    connected. *)
Definition before_media_change (song : Song)
    (old_media : option Media) (media : Media) : M unit :=
  current <- gets playlist_current_song;;
  if is_Some old_media || negb (opt_eqb Song_eqb current (Some song)) then
    disconnect (before_media_change_of song);;
    player_set_play_range None;;
    player_resume
  else ret tt.

Definition run_receiver (r : receiver)
    (old_media : option Media) (media : Media) : M unit :=
  match r with
  | before_media_change_of song => before_media_change song old_media media
  | foreign_receiver n => emit_event (EvForeign n)
  end.

Fixpoint run_receivers (rs : list receiver)
    (old_media : option Media) (media : Media) : M unit :=
  match rs with
  | [] => ret tt
  | r :: rest =>
      run_receiver r old_media media;; run_receivers rest old_media media
  end.

(** Modelled from the spec: [Signal.emit] calls the subscribers that are
    registered when the emission starts, in registration order, and does not
    suppress a failure of a subscriber. *)
Definition emit_media_about_to_changed
    (old_media : option Media) (media : Media) : M unit :=
  rs <- gets media_about_to_changed;;
  run_receivers rs old_media media.

(** *** [App.load_state] *)

(** [with open(STATE_FILE, 'r') as f: state = json.load(f)] *)
Definition read_state_file : M json :=
  fun w =>
    match state_file w with
    | None => (w, Raise (Exn FileNotFoundError "STATE_FILE"))
    | Some ts =>
        match loads ts with
        | Some v => (w, Ok v)
        | None => (w, Raise (Exn JSONDecodeError "invalid document"))
        end
    end.

(** The loop [for song in state['playlist']] with its accumulator [songs]. *)
Fixpoint resolve_each (items : list json) (songs : list Song)
  : result (list Song) :=
  match items with
  | [] => Ok songs
  | JStr line :: rest =>
      match resolve line with
      | Some song => resolve_each rest (songs ++ [song])
      | None => resolve_each rest songs     (* except ResolverNotFound: pass *)
      end
  | _ :: _ => Raise (Exn TypeError "reference is not a string")
  end.

(** The [else] branch of the [try] statement. *)
Definition load_state_else (state : json) : M unit :=
  v <- lift (getitem state "volume");;
  player_set_volume v;;
  m <- lift (getitem state "playback_mode");;
  mode <- lift (PlaybackMode_of m);;
  modify (set_playlist_playback_mode mode);;
  pl <- lift (getitem state "playlist");;
  items <- lift (iterate pl);;
  songs <- lift (resolve_each items []);;
  playlist_init_from songs;;
  app_mode <- gets app_mode;;
  (if negb (Nat.eqb (length songs) 0)
      && negb (Z.eqb (Z.land app_mode GuiMode) 0)
   then show_player_playlist else ret tt);;
  song <- lift (getitem state "song");;
  match song with
  | JNull => ret tt
  | JStr line =>
      match resolve line with
      | None => ret tt                      (* except ResolverNotFound: pass *)
      | Some song =>
          connect (before_media_change_of song);;
          player_pause;;
          p <- lift (getitem state "position");;
          start <- as_start p;;
          player_set_play_range start;;
          player_load_song song
      end
  | _ => raise (Exn TypeError "reference is not a string")
  end.

Definition load_state : M unit :=
  fun w =>
    match read_state_file w with
    | (w1, Ok state) => load_state_else state w1
    | (w1, Raise (Exn FileNotFoundError _)) => (w1, Ok tt)
    | (w1, Raise (Exn JSONDecodeError _)) =>
        logger_exception "invalid state file" w1
    | (w1, Raise e) => (w1, Raise e)
    end.

(** *** [App.dump_state] *)

Definition reverse_line (song : Song) : M string :=
  match reverse song with
  | Some line => ret line
  | None => raise (Exn NotReversible "provider cannot export a reference")
  end.

(** [[reverse(song, as_line=True) for song in playlist.list()]] *)
Fixpoint reverse_each (songs : list Song) : M (list json) :=
  match songs with
  | [] => ret []
  | song :: rest =>
      line <- reverse_line song;;
      lines <- reverse_each rest;;
      ret (JStr line :: lines)
  end.

Definition json_of_option (q : option Q) : json :=
  match q with Some x => JNum x | None => JNull end.

(** [open(STATE_FILE, 'w')]: creates or truncates the file. *)
Definition open_write : M unit :=
  emit_event EvOpenWrite;; modify (set_state_file (Some [])).

(** [fp.write(chunk)]: appends, unless the device refuses the chunk. *)
Definition write_chunk (t : token) : M unit :=
  fun w =>
    let content := match state_file w with Some c => c | None => [] end in
    match disk_budget w with
    | Some O => (w, Raise (Exn OSError "write failed"))
    | Some (S n) =>
        (set_disk_budget (Some n) (set_state_file (Some (content ++ [t])) w),
         Ok tt)
    | None => (set_state_file (Some (content ++ [t])) w, Ok tt)
    end.

Fixpoint write_chunks (ts : list token) : M unit :=
  match ts with
  | [] => ret tt
  | t :: rest => write_chunk t;; write_chunks rest
  end.

(** [json.dump(state, f)] *)
Definition json_dump (state : json) : M unit := write_chunks (encode state).

(** The dictionary that [dump_state] builds, in the order of the literal. *)
Definition state_record (mode : PlaybackMode) (volume : Q) (st : State)
    (song : json) (position : option Q) (lines : list json) : json :=
  JObj [ ("playback_mode", JNum (inject_Z (PlaybackMode_value mode)));
         ("volume", JNum volume);
         ("state", JNum (inject_Z (State_value st)));
         ("song", song);
         ("position", json_of_option position);
         ("playlist", JArr lines) ].

Definition build_state : M json :=
  current <- gets player_current_song;;
  song <- match current with
          | None => ret JNull
          | Some s => line <- reverse_line s;; ret (JStr line)
          end;;
  mode <- gets playlist_playback_mode;;
  volume <- gets player_volume;;
  st <- gets player_state;;
  position <- gets player_position;;
  songs <- gets playlist_songs;;
  lines <- reverse_each songs;;
  ret (state_record mode volume st song position lines).

Definition dump_state : M unit :=
  state <- build_state;;
  open_write;;
  json_dump state.

(** *** [App.create_action] *)

Definition string_of_Z (z : Z) : string :=
  DecimalString.NilZero.string_of_int (Z.to_int z).

(** [int(x)] on a number: truncation towards zero. *)
Definition int_of_Q (x : Q) : Z := Z.quot (Qnum x) (Zpos (Qden x)).

Record Action : Type := mkAction {
  set_progress : Q -> M unit;
  failed : string -> M unit
}.

(** The object yielded to the [with] block: [s] is the description of the
    operation and [cls] the [ActionError] class of this call.  The product
    [value * 100] of [set_progress] is taken on rationals. *)
Definition make_action (s : string) (cls : nat) : Action :=
  mkAction
    (fun value =>
       show_msg (s ++ "..." ++ string_of_Z (int_of_Q (value * 100)) ++ "%"))
    (fun msg => raise (Exn (ActionError cls) msg)).

(** [with app.create_action(s) as action: block(action)] *)
Definition create_action (s : string) (block : Action -> M unit) : M unit :=
  cls <- gets action_classes;;
  modify (set_action_classes (S cls));;
  show_msg (s ++ "...");;
  fun w =>
    match block (make_action s cls) w with
    | (w1, Ok _) => show_msg (s ++ "...done") w1
    | (w1, Raise (Exn c msg as e)) =>
        let own := match c with
                   | ActionError n => Nat.eqb n cls
                   | _ => false
                   end in
        if own then show_msg (s ++ "...failed" ++ tab ++ str e) w1
        else if is_Exception e then
          (show_msg (s ++ "...error" ++ tab ++ str e);; raise e) w1
        else (w1, Raise e)
    end.

(** *** Shutdown *)

Definition run_subscriber (s : subscriber) : M unit :=
  match s with
  | dump_state_subscriber => dump_state
  | foreign_subscriber n raises =>
      emit_event (EvForeign n);;
      match raises with
      | Some e => raise e
      | None => ret tt
      end
  end.

Fixpoint run_subscribers (l : list subscriber) : M unit :=
  match l with
  | [] => ret tt
  | s :: rest => run_subscriber s;; run_subscribers rest
  end.

(** Modelled from the spec: [app.about_to_shutdown.emit(app)], with the
    emission of the event bus as above (registration order, a failure of a
    subscriber is not suppressed). *)
Definition emit_about_to_shutdown : M unit :=
  l <- gets about_to_shutdown;;
  run_subscribers l.

Definition teardown_aio_support : M unit := emit_event EvTeardownAio.

Definition _shutdown_app : M unit :=
  emit_about_to_shutdown;;
  player_stop;;
  player_shutdown;;
  teardown_aio_support.

(** [run_app_once(app, future)]; [future] is what
    [loop.run_until_complete(future)] does. *)
Definition run_app_once (future : M unit) : M unit :=
  try_finally
    (fun w =>
       match future w with
       | (w1, Raise (Exn KeyboardInterrupt _)) => (w1, Ok tt)
       | r => r
       end)
    (_shutdown_app;;
     emit_event EvLoopStop;;
     emit_event EvLoopClose).

End App.

(** ** Vocabulary of the statements *)

Section Vocabulary.

Context {R : Resolver}.
Local Open Scope monad_scope.

(** The JSON value of an optional reference. *)
Definition json_of_reference (line : option string) : json :=
  match line with Some l => JStr l | None => JNull end.

(** A decoded state that follows the schema of the state file: a number
    under [volume], the ordinal of a playback mode under [playback_mode], a
    reference or null under [song], a number or null under [position] and an
    array of references under [playlist]. *)
Definition persisted (state : json) (volume : Q) (mode : PlaybackMode)
    (song : option string) (position : option Q) (refs : list string)
  : Prop :=
  getitem state "volume" = Ok (JNum volume) /\
  (exists m, getitem state "playback_mode" = Ok m
             /\ PlaybackMode_of m = Ok mode) /\
  getitem state "playlist" = Ok (JArr (map JStr refs)) /\
  getitem state "song" = Ok (json_of_reference song) /\
  getitem state "position" = Ok (json_of_option position).

(** [line] is what [reverse] gives for the current song, if there is one. *)
Definition reference_of (current : option Song) (line : option string)
  : Prop :=
  match current, line with
  | Some c, Some l => reverse c = Some l
  | None, None => True
  | _, _ => False
  end.

(** [lines] is what [reverse] gives for the songs of a playlist. *)
Definition references_of (songs : list Song) (lines : list string) : Prop :=
  Forall2 (fun s l => reverse s = Some l) songs lines.

(** The record that [dump_state] builds in world [w] when the references of
    the current song and of the playlist are [current] and [lines]. *)
Definition snapshot (w : World) (current : option string)
    (lines : list string) : json :=
  state_record (playlist_playback_mode w) (player_volume w) (player_state w)
    (json_of_reference current) (player_position w) (map JStr lines).

(** The references of a list that resolve, in their order. *)
Fixpoint resolved (refs : list string) : list Song :=
  match refs with
  | [] => []
  | line :: rest =>
      match resolve line with
      | Some song => song :: resolved rest
      | None => resolved rest
      end
  end.

(** How many references of a list fail to resolve. *)
Fixpoint unresolved (refs : list string) : nat :=
  match refs with
  | [] => O
  | line :: rest =>
      match resolve line with
      | Some _ => unresolved rest
      | None => S (unresolved rest)
      end
  end.

(** The song that a saved current reference stands for, if any. *)
Definition resolved_song (song : option string) : option Song :=
  match song with
  | Some line => resolve line
  | None => None
  end.

(** The call to the user interface that [load_state] makes in GUI mode for a
    non-empty playlist. *)
Definition shown_playlist (mode : Z) (songs : list Song) : list event :=
  if negb (Nat.eqb (length songs) 0) && negb (Z.eqb (Z.land mode GuiMode) 0)
  then [EvShowPlayerPlaylist] else [].

(** A media change of the player: when the signal is emitted the playlist
    already points at [tr_current]. *)
Record transition : Type := mkTransition {
  tr_current : option Song;
  tr_old_media : option Media;
  tr_media : Media
}.

Definition media_transition (t : transition) : M unit :=
  modify (set_playlist_current_song (tr_current t));;
  emit_media_about_to_changed (tr_old_media t) (tr_media t).

Fixpoint media_transitions (ts : list transition) : M unit :=
  match ts with
  | [] => ret tt
  | t :: rest => media_transition t;; media_transitions rest
  end.

(** A transition is the echo of the pre-load when there was no media before
    and the playlist points at the restored song; any other one is real. *)
Definition echo_of (song : Song) (t : transition) : Prop :=
  tr_old_media t = None /\ tr_current t = Some song.

(** The keys of a JSON object, in order. *)
Definition keys (state : json) : list string :=
  match state with
  | JObj ms => map fst ms
  | _ => []
  end.

End Vocabulary.

(** ** A concrete resolver and concrete sessions *)

Module Demo.

(** Two songs of a provider that exports references, and a song of a
    provider that does not. *)
Inductive song : Type := song42 | song43 | local_song.

Definition song_eq_dec (a b : song) : {a = b} + {a <> b}.
Proof. decide equality. Defined.

Definition demo_resolve (line : string) : option song :=
  if String.eqb line "provider://X/42" then Some song42
  else if String.eqb line "provider://X/43" then Some song43
  else None.

Definition demo_reverse (s : song) : option string :=
  match s with
  | song42 => Some "provider://X/42"
  | song43 => Some "provider://X/43"
  | local_song => None
  end.

#[export] Instance resolver : Resolver :=
  {| Song := song;
     Song_eq_dec := song_eq_dec;
     resolve := demo_resolve;
     reverse := demo_reverse |}.

(** A freshly started GUI application without a state file. *)
Definition fresh : World :=
  mkWorld GuiMode 100 stopped None None [] sequential [] None
    [dump_state_subscriber] None None 0 [].

(** A running session: two songs, the first one playing at 15 seconds. *)
Definition session : World :=
  mkWorld GuiMode (8 # 10) playing (Some 15) (Some song42) [] loop
    [song42; song43] (Some song42) [dump_state_subscriber] None None 0 [].

(** The document of the scenario of the specification. *)
Definition scenario : json :=
  JObj [ ("volume", JNum (8 # 10)); ("playback_mode", JNum 1);
         ("song", JStr "provider://X/42"); ("position", JNum 15);
         ("playlist", JArr [JStr "provider://X/42"; JStr "provider://X/43"]) ].

(** The same document with a playlist entry of a provider that is gone. *)
Definition scenario_gone : json :=
  JObj [ ("volume", JNum (8 # 10)); ("playback_mode", JNum 1);
         ("song", JStr "provider://X/42"); ("position", JNum 15);
         ("playlist", JArr [JStr "provider://X/42"; JStr "provider://Y/7"]) ].

Definition refs42_43 : list string :=
  ["provider://X/42"; "provider://X/43"].

Definition refs42_gone : list string :=
  ["provider://X/42"; "provider://Y/7"].

Definition with_file (ts : list token) (w : World) : World :=
  set_state_file (Some ts) w.

(** A file that was cut after its first three lexemes. *)
Definition truncated : list token := [TLBrace; TStr "volume"; TColon].

(** A session whose current song cannot be reversed, with the state file of
    an earlier run on disk and a second shutdown subscriber. *)
Definition local_session : World :=
  mkWorld GuiMode 100 playing (Some 3) (Some local_song) [] sequential
    [song42] (Some local_song)
    [dump_state_subscriber; foreign_subscriber 7 None]
    (Some (encode scenario)) None 0 [].

(** The running session on a device that accepts three more chunks, with the
    state file of an earlier run on disk. *)
Definition failing_disk : World :=
  set_disk_budget (Some 3%nat) (with_file (encode scenario) session).

(** An empty session with the state file of an earlier run on disk. *)
Definition empty_session : World := with_file (encode scenario) fresh.

End Demo.

(** ** Frames: what an operation leaves alone *)

Section Frames.

Context {R : Resolver}.

(** The live session: everything of the player, the playlist and the
    application that is not the state file, the device or the event log. *)
Definition same_session (w w' : World) : Prop :=
  app_mode w' = app_mode w /\
  player_volume w' = player_volume w /\
  player_state w' = player_state w /\
  player_position w' = player_position w /\
  player_current_song w' = player_current_song w /\
  media_about_to_changed w' = media_about_to_changed w /\
  playlist_playback_mode w' = playlist_playback_mode w /\
  playlist_songs w' = playlist_songs w /\
  playlist_current_song w' = playlist_current_song w /\
  about_to_shutdown w' = about_to_shutdown w /\
  action_classes w' = action_classes w.


(** An operation keeps a relation between the world before and after it,
    whether it returns or raises. *)
Definition keeps {A} (rel : World -> World -> Prop) (m : M A) : Prop :=
  forall w, rel w (fst (m w)).

(** The five keys that [load_state] reads. *)
Definition read_keys : list string :=
  ["volume"; "playback_mode"; "playlist"; "song"; "position"].

Definition is_object (state : json) : bool :=
  match state with JObj _ => true | _ => false end.

Definition is_foreign (r : receiver) : bool :=
  match r with foreign_receiver _ => true | _ => false end.

Definition foreign_event (r : receiver) : list event :=
  match r with foreign_receiver n => [EvForeign n] | _ => [] end.

End Frames.

(** ** Construction and start of the application

    [create_app], [attach_attrs], [init_app] and the part of [run_app] that
    precedes the loop build the application object and start its services.
    What matters in them is which attribute of the object is assigned and
    read under which mode bit, and which service is started with which
    argument.  The object is modelled by its class, the names of its
    instance attributes and the value of [mode]; the calls to the
    subsystems are recorded in order. *)

Record Config : Type := mkConfig {
  MODE : Z;                       (* config.MODE *)
  ALLOW_LAN_CONNECT : bool;       (* config.ALLOW_LAN_CONNECT *)
  MPV_AUDIO_DEVICE : string       (* config.MPV_AUDIO_DEVICE *)
}.

(** What the interpreter finds outside the program: [sys.platform.lower()]
    and whether the two platform modules import ([Some msg]: the import
    raises [ImportError(msg)]). *)
Record Env : Type := mkEnv {
  platform : string;
  global_hotkey_mac_import : option string;
  linux_import : option string
}.

Inductive sys_event : Type :=
| SysCall (what : string)                    (* a call to a subsystem *)
| SysNew (cls : string)                      (* a constructor call *)
| SysConnect (signal receiver : string)      (* signal.connect(receiver) *)
| SysCallLater (delay : Z) (what : string)   (* loop.call_later(delay, ...) *)
| SysServerRun (host : string)               (* app.server.run(host) *)
| SysStartServer (host : string) (port : Z)  (* asyncio.start_server(...) *)
| SysWarning (msg : string).                 (* logger.warning(msg) *)

(** The application object: its class, the names of its instance
    attributes and the calls made so far.  [app.config] and [app.mode] are
    assigned once, by [App.__init__], from the configuration; the functions
    below take their values from the configuration they are given and check
    on the object that the attribute is there. *)
Record AppObject : Type := mkAppObject {
  gui_class : bool;               (* the class is FApp(App, GuiApp) *)
  attributes : list string;       (* instance attributes, latest first *)
  effects : list sys_event        (* calls so far, oldest first *)
}.

Inductive boot_error : Type :=
| AttributeError (name : string)
| ImportError (msg : string).

Inductive boot_result (A : Type) : Type :=
| Booted (a : A)
| BootError (e : boot_error).
Arguments Booted {A} a.
Arguments BootError {A} e.

Definition Boot (A : Type) : Type := AppObject -> AppObject * boot_result A.

Definition boot_ret {A} (a : A) : Boot A := fun o => (o, Booted a).

Definition boot_raise {A} (e : boot_error) : Boot A :=
  fun o => (o, BootError e).

Definition boot_bind {A B} (m : Boot A) (k : A -> Boot B) : Boot B :=
  fun o =>
    match m o with
    | (o1, Booted a) => k a o1
    | (o1, BootError e) => (o1, BootError e)
    end.

Declare Scope boot_scope.
Delimit Scope boot_scope with boot.
Notation "x <- m ;; k" := (boot_bind m (fun x => k))
  (at level 61, m at next level, right associativity) : boot_scope.
Notation "m ;; k" := (boot_bind m (fun _ => k))
  (at level 61, right associativity) : boot_scope.

Section Boot.

Local Open Scope boot_scope.

(** Names that the class [App] defines. *)
Definition App_class : list string :=
  ["DaemonMode"; "GuiMode"; "CliMode"; "show_msg"; "get_listen_addr";
   "load_state"; "dump_state"; "create_action"].

(** Names that [GuiApp] adds, its own and those of the widget it derives
    from that this module uses. *)
Definition GuiApp_class : list string :=
  ["mode"; "closeEvent"; "show"; "setObjectName"].

(** [hasattr(app, name)] *)
Definition has_attr (o : AppObject) (name : string) : bool :=
  existsb (String.eqb name) (attributes o)
  || existsb (String.eqb name) App_class
  || (gui_class o && existsb (String.eqb name) GuiApp_class).

(** Reading [app.<name>] *)
Definition read (name : string) : Boot unit :=
  fun o =>
    if has_attr o name then (o, Booted tt)
    else (o, BootError (AttributeError name)).

(** [app.<name> = ...] *)
Definition assign (name : string) : Boot unit :=
  fun o =>
    (mkAppObject (gui_class o) (name :: attributes o) (effects o),
     Booted tt).

Definition record (e : sys_event) : Boot unit :=
  fun o =>
    (mkAppObject (gui_class o) (attributes o) (effects o ++ [e]),
     Booted tt).

(** [app.<name> = Cls(...)] *)
Definition attach (name cls : string) : Boot unit :=
  record (SysNew cls);; assign name.

(** The test [app.mode & mask] *)
Definition mode_has (config : Config) (mask : Z) : bool :=
  negb (Z.eqb (Z.land (MODE config) mask) 0).

(** [if app.mode & mask: body] *)
Definition when_mode (config : Config) (mask : Z) (body : Boot unit)
  : Boot unit :=
  read "mode";;
  if mode_has config mask then body else boot_ret tt.

(** [App.get_listen_addr] *)
Definition get_listen_addr (config : Config) : string :=
  if ALLOW_LAN_CONNECT config then "0.0.0.0" else "127.0.0.1".

(** [app.get_listen_addr()] *)
Definition listen_addr (config : Config) : Boot string :=
  read "get_listen_addr";; read "config";;
  boot_ret (get_listen_addr config).

(** [App.__init__], followed by [GuiApp.__init__] for the GUI class. *)
Definition App_init (gui : bool) : AppObject :=
  mkAppObject gui
    ["about_to_shutdown"; "initialized"; "config"; "mode"]
    ([SysConnect "initialized" "load_state";
      SysConnect "about_to_shutdown" "dump_state"]
     ++ if gui then [SysCall "setObjectName"; SysCall "setWindowIcon"]
        else []).

Definition attach_attrs (config : Config) : Boot unit :=
  attach "library" "Library";;
  attach "live_lyric" "LiveLyric";;
  read "config";;
  attach "player" "Player";;
  read "player";;
  assign "playlist";;
  attach "plugin_mgr" "PluginsManager";;
  attach "request" "Request";;
  attach "task_mgr" "TaskManager";;
  attach "fm" "FM";;
  when_mode config (Z.lor DaemonMode GuiMode)
    (attach "version_mgr" "VersionManager");;
  when_mode config DaemonMode
    (attach "server" "FuoServer";;
     attach "pubsub_gateway" "PubsubGateway";;
     read "pubsub_gateway";;
     attach "_ll_publisher" "LiveLyricPublisher");;
  when_mode config GuiMode
    (attach "coll_mgr" "CollectionManager";;
     attach "theme_mgr" "ThemeManager";;
     attach "tips_mgr" "TipsManager";;
     attach "hotkey_mgr" "HotkeyManager";;
     attach "img_mgr" "ImgManager";;
     attach "pvd_uimgr" "ProviderUiManager";;
     attach "pl_uimgr" "PlaylistUiManager";;
     attach "mymusic_uimgr" "MyMusicUiManager";;
     attach "coll_uimgr" "CollectionUiManager";;
     attach "browser" "Browser";;
     attach "ui" "Ui";;
     read "ui";;
     assign "show_msg").

(** [create_app]; the result is the object together with the outcome of
    [attach_attrs] and of the final read of [app.library]. *)
Definition create_app (config : Config) : AppObject * boot_result unit :=
  let gui := mode_has config GuiMode in
  let qt :=
    if gui then
      [SysNew "QApplication"; SysCall "setQuitOnLastWindowClosed";
       SysCall "setApplicationName"; SysNew "QEventLoop";
       SysCall "asyncio.set_event_loop"]
    else [] in
  let setup :=
    qt ++ [SysCall "Signal.setup_aio_support";
           SysCall "Resolver.setup_aio_support"] in
  let o := App_init gui in
  (attach_attrs config;; read "library")
    (mkAppObject (gui_class o) (attributes o) (setup ++ effects o)).

Definition init_app (config : Config) : Boot unit :=
  read "player";; read "live_lyric";;
  record (SysConnect "player.position_changed"
            "live_lyric.on_position_changed");;
  read "playlist";; read "live_lyric";;
  record (SysConnect "playlist.song_changed" "live_lyric.on_song_changed");;
  when_mode config DaemonMode
    (read "live_lyric";; read "_ll_publisher";;
     record (SysConnect "live_lyric.sentence_changed"
               "_ll_publisher.publish"));;
  read "plugin_mgr";; record (SysCall "plugin_mgr.scan");;
  when_mode config GuiMode
    (read "theme_mgr";; record (SysCall "theme_mgr.initialize");;
     read "tips_mgr";; record (SysCall "tips_mgr.show_random_tip");;
     read "coll_uimgr";; record (SysCall "coll_uimgr.initialize");;
     read "browser";; record (SysCall "browser.initialize");;
     read "show";; record (SysCall "show")).

(** The platform integration of [run_app] in daemon mode: a failing import
    of the macOS hotkey module is caught and logged, a failing import of
    the Linux module is not caught. *)
Definition start_platform_services (env : Env) : Boot unit :=
  (if String.eqb (platform env) "darwin" then
     match global_hotkey_mac_import env with
     | Some msg =>
         record (SysWarning ("Can't start mac hotkey listener: " ++ msg))
     | None =>
         record (SysNew "MacGlobalHotkeyManager");;
         record (SysCall "mac_global_hotkey_mgr.start")
     end
   else boot_ret tt);;
  (if String.eqb (platform env) "linux" then
     match linux_import env with
     | Some msg => boot_raise (ImportError msg)
     | None => record (SysCall "run_mpris2_server")
     end
   else boot_ret tt).

(** [run_app] up to the [try] statement. *)
Definition run_app_start (config : Config) (env : Env) : Boot unit :=
  when_mode config (Z.lor DaemonMode GuiMode)
    (read "version_mgr";;
     record (SysCallLater 10 "version_mgr.check_release"));;
  when_mode config DaemonMode
    (start_platform_services env;;
     read "server";;
     host <- listen_addr config;;
     record (SysServerRun host);;
     read "pubsub_gateway";;
     record (SysNew "PubsubHandlerV1");;
     host <- listen_addr config;;
     record (SysStartServer host 23334)).

(** The first statement of the [try] block of [run_app]. *)
Definition warn_headless (config : Config) : Boot unit :=
  read "config";;
  if Z.eqb (Z.land (MODE config) (Z.lor GuiMode DaemonMode)) 0
  then record (SysWarning "Fuo running with no daemon and no window")
  else boot_ret tt.

(** [create_app], [init_app] and [run_app] up to the loop, one after the
    other on the same object. *)
Definition boot (config : Config) (env : Env)
  : AppObject * boot_result unit :=
  match create_app config with
  | (o, Booted _) =>
      (init_app config;; run_app_start config env;; warn_headless config) o
  | (o, BootError e) => (o, BootError e)
  end.

Definition is_listener (e : sys_event) : bool :=
  match e with
  | SysServerRun _ | SysStartServer _ _ => true
  | _ => false
  end.

Definition is_release_check (e : sys_event) : bool :=
  match e with
  | SysCallLater _ _ => true
  | _ => false
  end.

Definition is_headless_warning (e : sys_event) : bool :=
  match e with
  | SysWarning msg =>
      String.eqb msg "Fuo running with no daemon and no window"
  | _ => false
  end.

(** The application object after [create_app] and [init_app]. *)
Definition ready (config : Config) : AppObject :=
  fst (init_app config (fst (create_app config))).

(** The mode bits of a configuration, as the [if] statements test them. *)
Definition daemon_bit (config : Config) : bool :=
  mode_has config DaemonMode.

Definition gui_bit (config : Config) : bool :=
  mode_has config GuiMode.

End Boot.

(** How [run_app] ends: with an exception of the start of the services, or
    with the outcome of the loop and of the [finally] clause. *)
Inductive run_outcome : Type :=
| Failed (e : boot_error)
| Ran (r : result unit).

Section RunApp.

Context {R : Resolver}.

(** The [finally] clause of [run_app] and of [run_app_once]. *)
Definition shutdown_and_close : M unit :=
  bind _shutdown_app
    (fun _ => bind (emit_event EvLoopStop) (fun _ => emit_event EvLoopClose)).

(** [run_app(app)]: the start of the services on the application object,
    then the loop on the live session; [forever] is what
    [loop.run_forever()] does.  An exception before the [try] statement
    leaves [run_app] at once; an exception of the first statement of the
    [try] block leaves it through the [finally] clause. *)
Definition run_app (config : Config) (env : Env) (forever : M unit)
    (o : AppObject) (w : World) : AppObject * World * run_outcome :=
  match run_app_start config env o with
  | (o1, BootError e) => (o1, w, Failed e)
  | (o1, Booted _) =>
      match warn_headless config o1 with
      | (o2, BootError e) =>
          match shutdown_and_close w with
          | (w1, Ok _) => (o2, w1, Failed e)
          | (w1, Raise e') => (o2, w1, Ran (Raise e'))
          end
      | (o2, Booted _) =>
          let (w1, r) :=
            try_finally
              (fun w0 =>
                 match forever w0 with
                 | (w1, Raise (Exn KeyboardInterrupt _)) => (w1, Ok tt)
                 | r => r
                 end)
              shutdown_and_close w in
          (o2, w1, Ran r)
      end
  end.

End RunApp.

(** ** More concrete sessions and documents *)

Module Cases.

Import Demo.

(** The document of the scenario with the additional key that [dump_state]
    writes. *)
Definition scenario_with_state : json :=
  JObj [ ("playback_mode", JNum 1); ("volume", JNum (8 # 10));
         ("state", JNum 2); ("song", JStr "provider://X/42");
         ("position", JNum 15);
         ("playlist", JArr [JStr "provider://X/42"; JStr "provider://X/43"]) ].

(** A document whose playback mode is no ordinal of the enumeration. *)
Definition scenario_bad_mode : json :=
  JObj [ ("volume", JNum 50); ("playback_mode", JNum 7);
         ("song", JNull); ("position", JNull); ("playlist", JArr []) ].

(** The document of the scenario without the saved position. *)
Definition scenario_no_position : json :=
  JObj [ ("volume", JNum (8 # 10)); ("playback_mode", JNum 1);
         ("song", JStr "provider://X/42");
         ("playlist", JArr [JStr "provider://X/42"; JStr "provider://X/43"]) ].

(** A document that is an array. *)
Definition array_document : json := JArr [JStr "provider://X/42"].


(** A player whose signal has a receiver before and one after the hook. *)
Definition hooked : World :=
  set_media_about_to_changed
    [foreign_receiver 1; before_media_change_of song42; foreign_receiver 2]
    fresh.

(** The change from the restored song to the next one. *)
Definition next_song : transition :=
  @mkTransition resolver (Some song43) (Some "media42") "media43".

End Cases.
(** * Properties

    ** The JSON decoder inverts the encoder *)

Module JsonFacts.
Import Json.

Lemma encode_arr_cons v l :
  encode (JArr (v :: l)) =
  TLBracket :: encode v ++ encode_rest TRBracket (map encode l).
Proof. reflexivity. Qed.

Lemma encode_obj_cons k v l :
  encode (JObj ((k, v) :: l)) =
  TLBrace :: TStr k :: TColon :: encode v
    ++ encode_rest TRBrace (map encode_member l).
Proof. reflexivity. Qed.

Lemma encode_nonempty j : (1 <= length (encode j))%nat.
Proof. destruct j as [| | | |[|]|[|]]; simpl; lia. Qed.

Lemma encode_head_not_close j r :
  match encode j ++ r with
  | TRBracket :: _ | TRBrace :: _ | TColon :: _ | TComma :: _ | [] => False
  | _ => True
  end.
Proof. destruct j as [| | | |[|]|[|]]; simpl; exact I. Qed.

Section Complete.

Let complete_value (j : json) : Prop :=
  forall fuel rest, (length (encode j) <= fuel)%nat ->
    parse_value fuel (encode j ++ rest) = Some (j, rest).

Lemma parse_elems_complete l :
  Forall complete_value l ->
  forall fuel rest,
    (length (encode_rest TRBracket (map encode l)) <= fuel)%nat ->
    parse_elems fuel (encode_rest TRBracket (map encode l) ++ rest)
    = Some (l, rest).
Proof.
  induction 1 as [|v l Hv _ IH]; intros fuel rest Hf.
  - destruct fuel; simpl in *; [lia | reflexivity].
  - destruct fuel; simpl in Hf; [lia|].
    rewrite length_app in Hf.
    simpl. rewrite <- app_assoc.
    rewrite Hv by lia. rewrite IH by lia. reflexivity.
Qed.

Lemma parse_members_complete l :
  Forall (fun kv => complete_value (snd kv)) l ->
  forall fuel rest,
    (length (encode_rest TRBrace (map encode_member l)) <= fuel)%nat ->
    parse_members fuel (encode_rest TRBrace (map encode_member l) ++ rest)
    = Some (l, rest).
Proof.
  induction 1 as [|[k v] l Hv _ IH]; intros fuel rest Hf.
  - destruct fuel; simpl in *; [lia | reflexivity].
  - destruct fuel; simpl in Hf; [lia|].
    rewrite length_app in Hf.
    simpl. rewrite <- app_assoc.
    simpl in Hv. rewrite Hv by lia. rewrite IH by lia. reflexivity.
Qed.

Lemma parse_value_complete j : complete_value j.
Proof.
  induction j as [| b | q | s | l IH | l IH] using json_nested_ind;
    intros fuel rest Hf.
  - destruct fuel; simpl in *; [lia | reflexivity].
  - destruct fuel; simpl in *; [lia | reflexivity].
  - destruct fuel; simpl in *; [lia | reflexivity].
  - destruct fuel; simpl in *; [lia | reflexivity].
  - destruct l as [|v l].
    + destruct fuel; simpl in *; [lia | reflexivity].
    + rewrite encode_arr_cons in *.
      destruct fuel; simpl in Hf; [lia|].
      rewrite length_app in Hf.
      inversion IH as [|? ? Hv Hl]; subst.
      cbn [app parse_value]. rewrite <- app_assoc.
      pose proof (encode_head_not_close v
                    (encode_rest TRBracket (map encode l) ++ rest)) as Hh.
      destruct (encode v ++ encode_rest TRBracket (map encode l) ++ rest)
        as [|t ts] eqn:E; [contradiction|].
      rewrite <- E.
      rewrite Hv by lia.
      rewrite (parse_elems_complete l Hl) by lia.
      destruct t; try reflexivity; contradiction.
  - destruct l as [|[k v] l].
    + destruct fuel; simpl in *; [lia | reflexivity].
    + rewrite encode_obj_cons in *.
      destruct fuel; simpl in Hf; [lia|].
      rewrite length_app in Hf.
      inversion IH as [|? ? Hv Hl]; subst.
      cbn [app parse_value]. rewrite <- app_assoc.
      simpl in Hv. rewrite Hv by lia.
      rewrite (parse_members_complete l Hl) by lia.
      reflexivity.
Qed.

End Complete.

Lemma loads_encode j : loads (encode j) = Some j.
Proof.
  unfold loads.
  pose proof (parse_value_complete j (length (encode j)) [] (le_n _)) as H.
  rewrite app_nil_r in H. rewrite H. reflexivity.
Qed.

(** *** The decoder accepts nothing but encodings *)

Ltac parse_cases :=
  repeat match goal with
         | H : Some _ = Some _ |- _ => inversion H; subst; clear H
         | H : None = Some _ |- _ => discriminate H
         | H : match ?x with _ => _ end = Some _ |- _ =>
             let E := fresh "E" in destruct x eqn:E
         end.

Lemma parse_sound fuel :
  (forall ts v rest,
      parse_value fuel ts = Some (v, rest) -> ts = encode v ++ rest) /\
  (forall ts vs rest,
      parse_elems fuel ts = Some (vs, rest) ->
      ts = encode_rest TRBracket (map encode vs) ++ rest) /\
  (forall ts ms rest,
      parse_members fuel ts = Some (ms, rest) ->
      ts = encode_rest TRBrace (map encode_member ms) ++ rest).
Proof.
  induction fuel as [|f (IHv & IHe & IHm)].
  - repeat split; intros; discriminate.
  - repeat split; intros ts x rest H; simpl in H; parse_cases;
      repeat match goal with
             | H : parse_value f _ = Some _ |- _ => apply IHv in H; subst
             | H : parse_elems f _ = Some _ |- _ => apply IHe in H; subst
             | H : parse_members f _ = Some _ |- _ => apply IHm in H; subst
             end;
      repeat match goal with
             | H : _ = encode _ ++ _ |- _ => rewrite H; clear H
             end;
      try reflexivity;
      rewrite ?encode_arr_cons, ?encode_obj_cons; simpl;
      rewrite <- ?app_assoc; reflexivity.
Qed.

(** No encoding is a proper prefix of another one, so a document that was
    cut before its end does not decode. *)
Lemma loads_truncated j p q :
  encode j = p ++ q -> q <> [] -> loads p = None.
Proof.
  intros Hj Hq. unfold loads.
  destruct (parse_value (length p) p) as [[v r]|] eqn:E; [|reflexivity].
  destruct r as [|t r]; [|reflexivity].
  exfalso. apply Hq.
  apply (proj1 (parse_sound _)) in E. rewrite app_nil_r in E. subst p.
  pose proof (parse_value_complete j (length (encode j)) [] (le_n _)) as Cj.
  assert (Hlen : (length (encode v) <= length (encode j))%nat).
  { rewrite Hj, length_app. lia. }
  pose proof (parse_value_complete v (length (encode j)) q Hlen) as Cv.
  rewrite app_nil_r in Cj. rewrite Hj in Cj, Cv. rewrite Cj in Cv.
  inversion Cv. reflexivity.
Qed.

End JsonFacts.

(** ** Properties of the application core *)

Section Properties.

Context {R : Resolver}.
Import JsonFacts.

Lemma Song_eqb_refl (s : Song) : Song_eqb s s = true.
Proof. unfold Song_eqb. destruct (Song_eq_dec s s); congruence. Qed.

Lemma Song_eqb_eq (a b : Song) : Song_eqb a b = true <-> a = b.
Proof. unfold Song_eqb. destruct (Song_eq_dec a b); split; congruence. Qed.

(** *** Resolving a saved playlist *)

Lemma resolve_each_refs refs acc :
  resolve_each (map JStr refs) acc = Ok (acc ++ resolved refs).
Proof.
  revert acc. induction refs as [|line refs IH]; intro acc; simpl.
  - now rewrite app_nil_r.
  - destruct (resolve line) as [song|].
    + rewrite IH, <- app_assoc. reflexivity.
    + apply IH.
Qed.

Lemma resolved_filter refs :
  map Some (resolved refs) = filter is_Some (map resolve refs).
Proof.
  induction refs as [|line refs IH]; simpl; [reflexivity|].
  destruct (resolve line); simpl; now rewrite IH.
Qed.

Lemma resolved_count refs :
  (length (resolved refs) + unresolved refs = length refs)%nat.
Proof.
  induction refs as [|line refs IH]; simpl; [reflexivity|].
  destruct (resolve line); simpl; lia.
Qed.

Lemma unresolved_all refs :
  unresolved refs = length refs -> resolved refs = [].
Proof.
  intro H. pose proof (resolved_count refs) as C.
  destruct (resolved refs); [reflexivity | simpl in C; lia].
Qed.

(** *** What [load_state] does with a state that follows the schema *)

Lemma load_state_else_persisted state volume mode song position refs w :
  persisted state volume mode song position refs ->
  exists w',
    load_state_else state w = (w', Ok tt) /\
    player_volume w' = volume /\
    playlist_playback_mode w' = mode /\
    playlist_songs w' = resolved refs /\
    events w' =
      events w ++ shown_playlist (app_mode w) (resolved refs)
        ++ match resolved_song song with
           | Some s => [EvPause; EvSetPlayRange position; EvLoadSong s]
           | None => []
           end /\
    media_about_to_changed w' =
      media_about_to_changed w
        ++ match resolved_song song with
           | Some s => [before_media_change_of s]
           | None => []
           end /\
    playlist_current_song w' = playlist_current_song w /\
    state_file w' = state_file w.
Proof.
  intros (Hv & (m & Hm & Hmode) & Hpl & Hsong & Hpos).
  unfold load_state_else, bind, lift.
  rewrite Hv. cbn [player_set_volume modify].
  rewrite Hm, Hmode, Hpl. cbn [iterate].
  rewrite resolve_each_refs. cbn [app playlist_init_from modify gets].
  cbn [app_mode set_playlist_songs set_playlist_playback_mode
       set_player_volume].
  unfold shown_playlist.
  destruct (negb (length (resolved refs) =? 0)%nat
            && negb (Z.land (app_mode w) GuiMode =? 0)%Z);
    cbn [show_player_playlist emit_event modify ret];
    rewrite Hsong;
    (destruct song as [line|]; cbn [resolved_song json_of_reference];
     [destruct (resolve line) as [s|]|]);
    cbn [connect player_pause emit_event modify ret];
    rewrite ?Hpos;
    try (destruct position; cbn [json_of_option as_start ret]);
    cbn [player_set_play_range player_load_song emit_event modify];
    eexists; (split; [reflexivity|]); cbn;
    rewrite <- ?app_assoc, ?app_nil_r; repeat split; reflexivity.
Qed.

Lemma load_state_persisted ts state volume mode song position refs w :
  state_file w = Some ts ->
  loads ts = Some state ->
  persisted state volume mode song position refs ->
  exists w',
    load_state w = (w', Ok tt) /\
    player_volume w' = volume /\
    playlist_playback_mode w' = mode /\
    playlist_songs w' = resolved refs /\
    events w' =
      events w ++ shown_playlist (app_mode w) (resolved refs)
        ++ match resolved_song song with
           | Some s => [EvPause; EvSetPlayRange position; EvLoadSong s]
           | None => []
           end /\
    media_about_to_changed w' =
      media_about_to_changed w
        ++ match resolved_song song with
           | Some s => [before_media_change_of s]
           | None => []
           end /\
    playlist_current_song w' = playlist_current_song w /\
    state_file w' = state_file w.
Proof.
  intros Hf Hl Hp.
  assert (E : load_state w = load_state_else state w).
  { unfold load_state, read_state_file. rewrite Hf, Hl. reflexivity. }
  rewrite E. now apply load_state_else_persisted.
Qed.

Lemma load_state_absent (w : World) :
  state_file w = None -> load_state w = (w, Ok tt).
Proof.
  intro H. unfold load_state, read_state_file. rewrite H. reflexivity.
Qed.

Lemma load_state_malformed (w : World) ts :
  state_file w = Some ts -> loads ts = None ->
  load_state w
  = (set_events (events w ++ [EvLogException "invalid state file"]) w, Ok tt).
Proof.
  intros H L. unfold load_state, read_state_file. rewrite H, L. reflexivity.
Qed.

(** C4. [load_state] returns without raising and leaves the player and the
    playlist as they are when there is no state file; when the content of
    the file does not decode it logs ["invalid state file"] and does nothing
    else, so that the start proceeds as without a saved session. *)
Theorem load_state_absent_or_malformed (w : World) :
  (state_file w = None -> load_state w = (w, Ok tt)) /\
  (forall ts, state_file w = Some ts -> loads ts = None ->
     load_state w
     = (set_events (events w ++ [EvLogException "invalid state file"]) w,
        Ok tt)).
Proof.
  split.
  - apply load_state_absent.
  - apply load_state_malformed.
Qed.

(** C2. For a saved playlist of N references of which M do not resolve,
    [load_state] returns without raising and installs in the live playlist
    the N - M songs that resolve, in the order of their references; when no
    reference resolves the live playlist is empty. *)
Theorem load_state_drops_unresolvable
    ts state volume mode song position refs (w : World) :
  state_file w = Some ts ->
  loads ts = Some state ->
  persisted state volume mode song position refs ->
  exists w',
    load_state w = (w', Ok tt) /\
    map Some (playlist_songs w') = filter is_Some (map resolve refs) /\
    length (playlist_songs w') = (length refs - unresolved refs)%nat /\
    (unresolved refs = length refs -> playlist_songs w' = []).
Proof.
  intros Hf Hl Hp.
  destruct (load_state_persisted ts state volume mode song position refs w
              Hf Hl Hp) as (w' & Hrun & _ & _ & Hsongs & _).
  exists w'. rewrite Hsongs. repeat split.
  - exact Hrun.
  - apply resolved_filter.
  - pose proof (resolved_count refs). lia.
  - apply unresolved_all.
Qed.

(** *** The hook armed by [load_state] *)

Lemma opt_eqb_neq (c : option Song) (s : Song) :
  c <> Some s -> opt_eqb Song_eqb c (Some s) = false.
Proof.
  destruct c as [x|]; simpl; [|reflexivity].
  intro H. destruct (Song_eqb x s) eqn:E; [|reflexivity].
  apply Song_eqb_eq in E. congruence.
Qed.

Lemma media_transitions_app a b (w : World) :
  media_transitions (a ++ b) w
  = bind (media_transitions a) (fun _ => media_transitions b) w.
Proof.
  revert w. induction a as [|t a IH]; intro w; [reflexivity|].
  simpl. unfold bind.
  destruct (media_transition t w) as [w1 [[]|e]]; [|reflexivity].
  rewrite IH. reflexivity.
Qed.

Lemma echo_leaves_hook s t (w : World) :
  echo_of s t ->
  media_about_to_changed w = [before_media_change_of s] ->
  exists w', media_transition t w = (w', Ok tt) /\
             events w' = events w /\
             media_about_to_changed w' = [before_media_change_of s].
Proof.
  intros [Ho Hc] Hr.
  unfold media_transition, emit_media_about_to_changed, bind, modify, gets.
  cbn [media_about_to_changed set_playlist_current_song]. rewrite Hr.
  cbn [run_receivers run_receiver]. unfold before_media_change, bind, gets.
  cbn [playlist_current_song]. rewrite Ho, Hc. simpl.
  rewrite Song_eqb_refl. simpl.
  eexists; split; [reflexivity|]. split; [reflexivity | exact Hr].
Qed.

Lemma echoes_leave_hook s echoes (w : World) :
  Forall (echo_of s) echoes ->
  media_about_to_changed w = [before_media_change_of s] ->
  exists w', media_transitions echoes w = (w', Ok tt) /\
             events w' = events w /\
             media_about_to_changed w' = [before_media_change_of s].
Proof.
  intro H. revert w. induction H as [|t echoes Ht _ IH]; intros w Hr.
  - exists w. repeat split; auto.
  - destruct (echo_leaves_hook s t w Ht Hr) as (w1 & E1 & Ev1 & Hr1).
    destruct (IH w1 Hr1) as (w2 & E2 & Ev2 & Hr2).
    exists w2. simpl. unfold bind. rewrite E1, E2.
    repeat split; congruence.
Qed.

Lemma real_transition_fires s t (w : World) :
  tr_old_media t <> None \/ tr_current t <> Some s ->
  media_about_to_changed w = [before_media_change_of s] ->
  exists w', media_transition t w = (w', Ok tt) /\
             events w' = events w ++ [EvSetPlayRange None; EvResume] /\
             media_about_to_changed w' = [].
Proof.
  intros Hreal Hr.
  unfold media_transition, emit_media_about_to_changed, bind, modify, gets.
  cbn [media_about_to_changed set_playlist_current_song]. rewrite Hr.
  cbn [run_receivers run_receiver]. unfold before_media_change, bind, gets.
  cbn [playlist_current_song set_playlist_current_song].
  assert (C : is_Some (tr_old_media t)
              || negb (opt_eqb Song_eqb (tr_current t) (Some s)) = true).
  { destruct Hreal as [Ho|Hc].
    - destruct (tr_old_media t); [reflexivity | congruence].
    - rewrite (opt_eqb_neq _ _ Hc). apply orb_true_r. }
  rewrite C.
  unfold disconnect, player_set_play_range, player_resume, emit_event,
    modify, ret.
  cbn. rewrite Hr. cbn. rewrite Song_eqb_refl.
  eexists; split; [reflexivity|]. cbn. rewrite <- app_assoc.
  split; reflexivity.
Qed.

Lemma disarmed_stays_silent later (w : World) :
  media_about_to_changed w = [] ->
  exists w', media_transitions later w = (w', Ok tt) /\
             events w' = events w /\
             media_about_to_changed w' = [].
Proof.
  revert w. induction later as [|t later IH]; intros w Hr.
  - exists w. repeat split; auto.
  - simpl. unfold bind at 1.
    unfold media_transition, emit_media_about_to_changed, bind, modify, gets.
    cbn [media_about_to_changed set_playlist_current_song]. rewrite Hr.
    cbn [run_receivers ret].
    destruct (IH (set_playlist_current_song (tr_current t) w) Hr)
      as (w' & E & Ev & Hr').
    exists w'. rewrite E. repeat split; assumption.
Qed.

(** C5. When the saved current reference resolves, [load_state] connects
    its hook to [media_about_to_changed], pauses the player, sets the play
    range to start at the saved position and loads the song.  The hook lets
    every change without previous media that leaves the playlist at the
    restored song pass, stays connected meanwhile, and at the first other
    change disconnects itself, resets the play range and resumes the
    player; later changes do not resume again.  When the saved reference is
    null or does not resolve, the playlist is installed and the player is
    not touched. *)
Theorem load_state_preloads_current_song
    ts state volume mode song position refs (w : World) :
  state_file w = Some ts ->
  loads ts = Some state ->
  persisted state volume mode song position refs ->
  exists w',
    load_state w = (w', Ok tt) /\
    playlist_songs w' = resolved refs /\
    match resolved_song song with
    | Some s =>
        events w' =
          events w ++ shown_playlist (app_mode w) (resolved refs)
            ++ [EvPause; EvSetPlayRange position; EvLoadSong s] /\
        media_about_to_changed w' =
          media_about_to_changed w ++ [before_media_change_of s] /\
        (media_about_to_changed w = [] ->
         forall echoes t later,
           Forall (echo_of s) echoes ->
           tr_old_media t <> None \/ tr_current t <> Some s ->
           (exists w1,
               media_transitions echoes w' = (w1, Ok tt) /\
               events w1 = events w' /\
               media_about_to_changed w1 = [before_media_change_of s]) /\
           (exists w2,
               media_transitions (echoes ++ t :: later) w' = (w2, Ok tt) /\
               events w2 = events w' ++ [EvSetPlayRange None; EvResume] /\
               media_about_to_changed w2 = []))
    | None =>
        events w' = events w ++ shown_playlist (app_mode w) (resolved refs) /\
        media_about_to_changed w' = media_about_to_changed w
    end.
Proof.
  intros Hf Hl Hp.
  destruct (load_state_persisted ts state volume mode song position refs w
              Hf Hl Hp) as (w' & Hrun & _ & _ & Hsongs & Hev & Hrs & _).
  exists w'. split; [exact Hrun|]. split; [exact Hsongs|].
  destruct (resolved_song song) as [s|].
  - split; [exact Hev|]. split; [exact Hrs|].
    intros Hnone echoes t later Hechoes Hreal.
    rewrite Hnone in Hrs. simpl in Hrs.
    destruct (echoes_leave_hook s echoes w' Hechoes Hrs)
      as (w1 & E1 & Ev1 & Hr1).
    split; [exists w1; repeat split; assumption|].
    destruct (real_transition_fires s t w1 Hreal Hr1)
      as (w2 & E2 & Ev2 & Hr2).
    destruct (disarmed_stays_silent later w2 Hr2) as (w3 & E3 & Ev3 & Hr3).
    exists w3. rewrite media_transitions_app. unfold bind. rewrite E1.
    simpl. unfold bind. rewrite E2, E3.
    repeat split; congruence.
  - rewrite !app_nil_r in *. split; assumption.
Qed.

(** *** Building and writing the snapshot *)

Lemma reverse_each_ok songs lines (w : World) :
  references_of songs lines ->
  reverse_each songs w = (w, Ok (map JStr lines)).
Proof.
  induction 1 as [|s l songs lines Hs _ IH]; [reflexivity|].
  simpl. unfold bind, reverse_line. rewrite Hs. cbn [ret].
  rewrite IH. reflexivity.
Qed.

Lemma reverse_each_inv songs (w w1 : World) js :
  reverse_each songs w = (w1, Ok js) ->
  w1 = w /\ exists lines, references_of songs lines /\ js = map JStr lines.
Proof.
  revert w1 js. induction songs as [|s songs IH]; intros w1 js H.
  - inversion H. split; [reflexivity|]. exists []. split; constructor.
  - simpl in H. unfold bind, reverse_line in H.
    destruct (reverse s) as [l|] eqn:Hs; [|discriminate].
    cbn [ret] in H.
    destruct (reverse_each songs w) as [w2 [js2|e]] eqn:E; [|discriminate].
    destruct (IH w2 js2 eq_refl) as (-> & lines & Hl & ->).
    inversion H; subst. split; [reflexivity|].
    exists (l :: lines). split; [constructor; assumption | reflexivity].
Qed.

Lemma reverse_each_fails songs s (w : World) :
  In s songs -> reverse s = None ->
  exists e, reverse_each songs w = (w, Raise e).
Proof.
  intros Hin Hs. induction songs as [|x songs IH]; [contradiction|].
  simpl. unfold bind, reverse_line.
  destruct (reverse x) as [l|] eqn:Hx.
  - cbn [ret]. destruct Hin as [->|Hin]; [congruence|].
    destruct (IH Hin) as (e & E). rewrite E. now exists e.
  - eexists. reflexivity.
Qed.

Lemma build_state_ok (w : World) current lines :
  reference_of (player_current_song w) current ->
  references_of (playlist_songs w) lines ->
  build_state w = (w, Ok (snapshot w current lines)).
Proof.
  intros Hc Hl. unfold build_state, bind, gets, reference_of in *.
  destruct (player_current_song w) as [c|], current as [l|];
    try contradiction.
  - unfold reverse_line. rewrite Hc. cbn [ret].
    rewrite (reverse_each_ok _ _ _ Hl). reflexivity.
  - cbn [ret]. rewrite (reverse_each_ok _ _ _ Hl). reflexivity.
Qed.

Lemma build_state_inv (w w1 : World) state :
  build_state w = (w1, Ok state) ->
  w1 = w /\
  exists current lines,
    reference_of (player_current_song w) current /\
    references_of (playlist_songs w) lines /\
    state = snapshot w current lines.
Proof.
  unfold build_state, bind, gets, reference_of. intro H.
  destruct (player_current_song w) as [c|] eqn:Hc.
  - unfold reverse_line in H.
    destruct (reverse c) as [l|] eqn:Hr; [|discriminate]. cbn [ret] in H.
    destruct (reverse_each (playlist_songs w) w) as [w2 [js|e]] eqn:E;
      [|discriminate].
    destruct (reverse_each_inv _ _ _ _ E) as (-> & lines & Hl & ->).
    inversion H; subst. split; [reflexivity|].
    exists (Some l), lines. repeat split; assumption.
  - cbn [ret] in H.
    destruct (reverse_each (playlist_songs w) w) as [w2 [js|e]] eqn:E;
      [|discriminate].
    destruct (reverse_each_inv _ _ _ _ E) as (-> & lines & Hl & ->).
    inversion H; subst. split; [reflexivity|].
    exists None, lines. repeat split; assumption.
Qed.

Lemma build_state_fails (w : World) s :
  player_current_song w = Some s \/ In s (playlist_songs w) ->
  reverse s = None ->
  exists e, build_state w = (w, Raise e).
Proof.
  intros Hin Hs. unfold build_state, bind, gets.
  destruct (player_current_song w) as [c|] eqn:Hc.
  - unfold reverse_line. destruct (reverse c) as [l|] eqn:Hr.
    + cbn [ret]. destruct Hin as [E|Hin]; [congruence|].
      destruct (reverse_each_fails _ _ w Hin Hs) as (e & E).
      rewrite E. now exists e.
    + eexists. reflexivity.
  - cbn [ret]. destruct Hin as [E|Hin]; [discriminate|].
    destruct (reverse_each_fails _ _ w Hin Hs) as (e & E).
    rewrite E. now exists e.
Qed.

Lemma write_chunks_unlimited ts (w : World) c :
  state_file w = Some c -> disk_budget w = None ->
  write_chunks ts w = (set_state_file (Some (c ++ ts)) w, Ok tt).
Proof.
  revert w c. induction ts as [|t ts IH]; intros w c Hf Hb.
  - destruct w; simpl in *; subst. rewrite app_nil_r. reflexivity.
  - simpl. unfold bind, write_chunk. rewrite Hf, Hb.
    rewrite (IH _ (c ++ [t])); [|reflexivity|exact Hb].
    unfold set_state_file; simpl. rewrite <- app_assoc. reflexivity.
Qed.

Lemma write_chunks_cut ts (w : World) c k :
  state_file w = Some c -> disk_budget w = Some k ->
  (k < length ts)%nat ->
  write_chunks ts w
  = (set_disk_budget (Some O) (set_state_file (Some (c ++ firstn k ts)) w),
     Raise (Exn OSError "write failed")).
Proof.
  revert w c k. induction ts as [|t ts IH]; intros w c k Hf Hb Hk.
  - simpl in Hk. lia.
  - simpl. unfold bind, write_chunk. rewrite Hf, Hb.
    destruct k as [|k].
    + destruct w; simpl in *; subst. rewrite app_nil_r. reflexivity.
    + rewrite (IH _ (c ++ [t]) k); [|reflexivity|reflexivity|simpl in Hk; lia].
      unfold set_state_file, set_disk_budget; simpl.
      rewrite <- app_assoc. reflexivity.
Qed.

Lemma write_chunks_done ts (w w' : World) c :
  state_file w = Some c ->
  write_chunks ts w = (w', Ok tt) ->
  state_file w' = Some (c ++ ts).
Proof.
  revert w c. induction ts as [|t ts IH]; intros w c Hf H.
  - inversion H; subst. now rewrite app_nil_r.
  - simpl in H. unfold bind, write_chunk in H. rewrite Hf in H.
    destruct (disk_budget w) as [[|n]|]; [discriminate| |];
      apply (IH _ (c ++ [t])) in H; try reflexivity;
      rewrite H, <- app_assoc; reflexivity.
Qed.

Lemma dump_state_ok (w : World) current lines :
  reference_of (player_current_song w) current ->
  references_of (playlist_songs w) lines ->
  disk_budget w = None ->
  dump_state w
  = (set_state_file (Some (encode (snapshot w current lines)))
       (set_events (events w ++ [EvOpenWrite]) w), Ok tt).
Proof.
  intros Hc Hl Hb. unfold dump_state, bind.
  rewrite (build_state_ok w current lines Hc Hl).
  unfold open_write, bind, emit_event, modify, json_dump.
  rewrite (write_chunks_unlimited _ _ []); [reflexivity|reflexivity|exact Hb].
Qed.

Lemma write_chunks_events ts (w w' : World) r :
  write_chunks ts w = (w', r) -> events w' = events w.
Proof.
  revert w. induction ts as [|t ts IH]; intros w H.
  - inversion H; reflexivity.
  - simpl in H. unfold bind, write_chunk in H.
    destruct (disk_budget w) as [[|n]|].
    + inversion H; reflexivity.
    + apply IH in H. exact H.
    + apply IH in H. exact H.
Qed.

Lemma dump_state_inv (w w' : World) :
  dump_state w = (w', Ok tt) ->
  exists current lines,
    reference_of (player_current_song w) current /\
    references_of (playlist_songs w) lines /\
    state_file w' = Some (encode (snapshot w current lines)) /\
    events w' = events w ++ [EvOpenWrite].
Proof.
  unfold dump_state, bind. intro H.
  destruct (build_state w) as [w1 [state|e]] eqn:B; [|discriminate].
  destruct (build_state_inv _ _ _ B) as (-> & current & lines & Hc & Hl & ->).
  exists current, lines. split; [exact Hc|]. split; [exact Hl|].
  unfold open_write, bind, emit_event, modify, json_dump in H.
  split.
  - apply (write_chunks_done _ _ _ []) in H; [exact H | reflexivity].
  - apply write_chunks_events in H. exact H.
Qed.

Lemma snapshot_persisted (w : World) current lines :
  persisted (snapshot w current lines) (player_volume w)
    (playlist_playback_mode w) current (player_position w) lines.
Proof.
  unfold persisted, snapshot, state_record. cbn.
  repeat split.
  eexists. split; [reflexivity|].
  destruct (playlist_playback_mode w); reflexivity.
Qed.

Lemma resolved_all lines :
  Forall (fun l => resolve l <> None) lines ->
  Forall2 (fun l s => resolve l = Some s) lines (resolved lines).
Proof.
  induction 1 as [|l lines Hl _ IH]; simpl; [constructor|].
  destruct (resolve l) as [s|] eqn:E; [|congruence].
  constructor; assumption.
Qed.

Lemma resolved_inverse songs lines :
  references_of songs lines ->
  (forall s l, In s songs -> reverse s = Some l -> resolve l = Some s) ->
  resolved lines = songs.
Proof.
  induction 1 as [|s l songs lines Hs _ IH]; intro Hinv; [reflexivity|].
  simpl. rewrite (Hinv s l (or_introl eq_refl) Hs).
  rewrite IH; [reflexivity|].
  intros s' l' Hin. apply Hinv. now right.
Qed.

(** C1. When [reverse] gives a reference for the current song and for every
    song of the playlist and each of these references resolves, [dump_state]
    followed by [load_state] at the next start installs a playlist with one
    song per saved reference, resolved from it, in the saved order, restores
    the volume and the playback mode, and loads into the player the song
    that the saved current reference resolves to (nothing when no song was
    current).  When [resolve] gives back the song that [reverse] started
    from, these are the songs of the dumped session. *)
Theorem dump_then_load_roundtrip (w : World) current lines :
  reference_of (player_current_song w) current ->
  references_of (playlist_songs w) lines ->
  disk_budget w = None ->
  Forall (fun l => resolve l <> None) lines ->
  (forall l, current = Some l -> resolve l <> None) ->
  exists w1,
    dump_state w = (w1, Ok tt) /\
    forall w2,
      state_file w2 = state_file w1 ->
      exists w3,
        load_state w2 = (w3, Ok tt) /\
        Forall2 (fun l s => resolve l = Some s) lines (playlist_songs w3) /\
        player_volume w3 = player_volume w /\
        playlist_playback_mode w3 = playlist_playback_mode w /\
        match current with
        | Some l =>
            exists c,
              resolve l = Some c /\
              events w3 =
                events w2 ++ shown_playlist (app_mode w2) (playlist_songs w3)
                  ++ [EvPause; EvSetPlayRange (player_position w);
                      EvLoadSong c]
        | None =>
            events w3 =
              events w2 ++ shown_playlist (app_mode w2) (playlist_songs w3)
        end /\
        ((forall s l,
             In s (playlist_songs w) \/ player_current_song w = Some s ->
             reverse s = Some l -> resolve l = Some s) ->
         playlist_songs w3 = playlist_songs w /\
         resolved_song current = player_current_song w).
Proof.
  intros Hc Hl Hb Hres Hcur.
  eexists. split; [apply (dump_state_ok w current lines Hc Hl Hb)|].
  intros w2 Hf. cbn [state_file set_state_file] in Hf.
  destruct (load_state_persisted _ _ _ _ _ _ _ w2 Hf
              (loads_encode _) (snapshot_persisted w current lines))
    as (w3 & Hrun & Hvol & Hmode & Hsongs & Hev & _).
  exists w3. split; [exact Hrun|].
  split; [rewrite Hsongs; now apply resolved_all|].
  split; [exact Hvol|]. split; [exact Hmode|]. split.
  - rewrite Hsongs. destruct current as [l|]; cbn [resolved_song] in Hev.
    + destruct (resolve l) as [c|] eqn:E; [|now destruct (Hcur l eq_refl)].
      exists c. split; [reflexivity | exact Hev].
    + now rewrite app_nil_r in Hev.
  - intro Hinv. split.
    + rewrite Hsongs. apply (resolved_inverse _ _ Hl).
      intros s l Hin. apply Hinv. now left.
    + unfold reference_of in Hc.
      destruct (player_current_song w) as [c|] eqn:Ec, current as [l|];
        try contradiction; [|reflexivity].
      cbn [resolved_song]. apply (Hinv c l); [now right | exact Hc].
Qed.

(** C3 (as the code has it).  [dump_state] rewrites the state file in
    place: opening it for writing empties it and the snapshot is then written
    chunk by chunk.  When the device fails after [k] chunks, with [k] less
    than the length of the snapshot, [dump_state] raises, the file holds the
    first [k] chunks of the new snapshot, and this content does not decode:
    the next [load_state] logs ["invalid state file"] and starts without a
    saved session. *)
Theorem dump_state_interrupted (w : World) current lines k :
  reference_of (player_current_song w) current ->
  references_of (playlist_songs w) lines ->
  disk_budget w = Some k ->
  (k < length (encode (snapshot w current lines)))%nat ->
  exists w',
    dump_state w = (w', Raise (Exn OSError "write failed")) /\
    state_file w' = Some (firstn k (encode (snapshot w current lines))) /\
    loads (firstn k (encode (snapshot w current lines))) = None /\
    forall w2,
      state_file w2 = state_file w' ->
      load_state w2
      = (set_events (events w2 ++ [EvLogException "invalid state file"]) w2,
         Ok tt).
Proof.
  intros Hc Hl Hb Hk.
  assert (L : loads (firstn k (encode (snapshot w current lines))) = None).
  { apply (loads_truncated (snapshot w current lines) _
             (skipn k (encode (snapshot w current lines)))).
    - symmetry. apply firstn_skipn.
    - intro E. apply (f_equal (@length token)) in E.
      rewrite length_skipn in E. cbn [length] in E. lia. }
  eexists. split; [|split; [|split; [exact L|]]].
  - unfold dump_state, bind.
    rewrite (build_state_ok w current lines Hc Hl).
    unfold open_write, bind, emit_event, modify, json_dump.
    rewrite (write_chunks_cut _ _ [] k); [reflexivity|reflexivity|exact Hb|exact Hk].
  - reflexivity.
  - intros w2 Hf. cbn [state_file set_state_file set_disk_budget app] in Hf.
    apply (load_state_malformed w2 _ Hf L).
Qed.

(** C8 (as the code has it).  The record that [dump_state] persists has
    exactly the six keys [playback_mode], [volume], [state], [song],
    [position] and [playlist], in this order: the ordinal of the playback
    mode, the volume, the ordinal of the player state, the reference of the
    current song or null, the position or null, and the array of the
    references of the playlist. *)
Theorem dump_state_record (w w' : World) :
  dump_state w = (w', Ok tt) ->
  exists (song : option string) (lines : list string),
    let state :=
      JObj [ ("playback_mode",
               JNum (inject_Z (PlaybackMode_value (playlist_playback_mode w))));
             ("volume", JNum (player_volume w));
             ("state", JNum (inject_Z (State_value (player_state w))));
             ("song", json_of_reference song);
             ("position", json_of_option (player_position w));
             ("playlist", JArr (map JStr lines)) ] in
    state_file w' = Some (encode state) /\
    loads (encode state) = Some state /\
    keys state
    = ["playback_mode"; "volume"; "state"; "song"; "position"; "playlist"].
Proof.
  intro H.
  destruct (dump_state_inv _ _ H) as (current & lines & _ & _ & Hf & _).
  exists current, lines. cbv zeta. split; [exact Hf|].
  split; [apply loads_encode | reflexivity].
Qed.

(** C10 (as the code has it).  When [reverse] gives a reference for the
    current song and for every song of the playlist, [dump_state] replaces
    the content of the state file, whatever it was, by the new snapshot; for
    a session without current song and with an empty playlist the snapshot
    has [song] null and an empty [playlist].  When [reverse] raises for the
    current song or for a song of the playlist, [dump_state] raises before
    the file is opened and changes nothing. *)
Theorem dump_state_overwrites (w : World) :
  (forall current lines,
      reference_of (player_current_song w) current ->
      references_of (playlist_songs w) lines ->
      disk_budget w = None ->
      exists w',
        dump_state w = (w', Ok tt) /\
        state_file w' = Some (encode (snapshot w current lines))) /\
  (player_current_song w = None ->
   playlist_songs w = [] ->
   disk_budget w = None ->
   exists w' state,
     dump_state w = (w', Ok tt) /\
     state_file w' = Some (encode state) /\
     loads (encode state) = Some state /\
     getitem state "song" = Ok JNull /\
     getitem state "playlist" = Ok (JArr [])) /\
  (forall s,
      player_current_song w = Some s \/ In s (playlist_songs w) ->
      reverse s = None ->
      exists e, dump_state w = (w, Raise e)).
Proof.
  split; [|split].
  - intros current lines Hc Hl Hb.
    eexists. split; [apply (dump_state_ok w current lines Hc Hl Hb)|].
    reflexivity.
  - intros Hc Hl Hb.
    assert (Hc' : reference_of (player_current_song w) None)
      by (rewrite Hc; exact I).
    assert (Hl' : references_of (playlist_songs w) [])
      by (rewrite Hl; constructor).
    exists (set_state_file (Some (encode (snapshot w None [])))
              (set_events (events w ++ [EvOpenWrite]) w)),
      (snapshot w None []).
    split; [apply (dump_state_ok w None [] Hc' Hl' Hb)|].
    split; [reflexivity|]. split; [apply loads_encode|].
    split; reflexivity.
  - intros s Hin Hs.
    destruct (build_state_fails w s Hin Hs) as (e & E).
    exists e. unfold dump_state, bind. rewrite E. reflexivity.
Qed.

(** *** Shutdown *)

Lemma run_subscribers_app a b (w : World) :
  run_subscribers (a ++ b) w
  = bind (run_subscribers a) (fun _ => run_subscribers b) w.
Proof.
  revert w. induction a as [|s a IH]; intro w; [reflexivity|].
  simpl. unfold bind.
  destruct (run_subscriber s w) as [w1 [[]|e]]; [|reflexivity].
  rewrite IH. reflexivity.
Qed.

Lemma shutdown_app_after_emission (w w1 : World) r :
  run_subscribers (about_to_shutdown w) w = (w1, r) ->
  _shutdown_app w
  = match r with
    | Ok _ =>
        (set_events
           (((events w1 ++ [EvStop]) ++ [EvShutdown]) ++ [EvTeardownAio]) w1,
         Ok tt)
    | Raise e => (w1, Raise e)
    end.
Proof.
  intro H.
  unfold _shutdown_app, emit_about_to_shutdown, bind, gets. rewrite H.
  destruct r as [[]|e]; reflexivity.
Qed.

(** C6 (as the code has it).  [_shutdown_app] does not catch a failure of
    an [about_to_shutdown] subscriber.  When a subscriber raises, the
    subscribers registered after it do not run, the player is neither
    stopped nor shut down, the asynchronous support is not torn down, and
    the exception reaches the caller of [_shutdown_app]: the world is the
    one the failing subscriber left.  When no subscriber raises, all of them
    run in registration order and then the player is stopped and shut down
    and the asynchronous support is torn down. *)
Theorem shutdown_propagates_subscriber_failure (w : World) :
  (forall pre s post w0 w1 e,
      about_to_shutdown w = pre ++ s :: post ->
      run_subscribers pre w = (w0, Ok tt) ->
      run_subscriber s w0 = (w1, Raise e) ->
      _shutdown_app w = (w1, Raise e)) /\
  (forall w1,
      run_subscribers (about_to_shutdown w) w = (w1, Ok tt) ->
      exists w2,
        _shutdown_app w = (w2, Ok tt) /\
        events w2 = events w1 ++ [EvStop; EvShutdown; EvTeardownAio]).
Proof.
  split.
  - intros pre s post w0 w1 e Hsubs Hpre Hs.
    apply (shutdown_app_after_emission w w1 (Raise e)).
    rewrite Hsubs, run_subscribers_app. unfold bind. rewrite Hpre.
    simpl. unfold bind. rewrite Hs. reflexivity.
  - intros w1 H. eexists.
    split; [apply (shutdown_app_after_emission w w1 (Ok tt) H)|].
    cbn. rewrite <- !app_assoc. reflexivity.
Qed.

Lemma reverse_each_world songs (w w1 : World) r :
  reverse_each songs w = (w1, r) -> w1 = w.
Proof.
  revert w1 r. induction songs as [|s songs IH]; intros w1 r H.
  - now inversion H.
  - simpl in H. unfold bind, reverse_line in H.
    destruct (reverse s); [|now inversion H]. cbn [ret] in H.
    destruct (reverse_each songs w) as [w2 [js|e]] eqn:E;
      specialize (IH _ _ eq_refl); subst; now inversion H.
Qed.

Lemma build_state_world (w w1 : World) r :
  build_state w = (w1, r) -> w1 = w.
Proof.
  unfold build_state, bind, gets, reverse_line. intro H.
  destruct (player_current_song w) as [c|].
  - destruct (reverse c); [|now inversion H]. cbn [ret] in H.
    destruct (reverse_each (playlist_songs w) w) as [w2 [js|e]] eqn:E;
      apply reverse_each_world in E; subst; now inversion H.
  - cbn [ret] in H.
    destruct (reverse_each (playlist_songs w) w) as [w2 [js|e]] eqn:E;
      apply reverse_each_world in E; subst; now inversion H.
Qed.

Lemma write_chunks_subscribers ts (w w' : World) r :
  write_chunks ts w = (w', r) -> about_to_shutdown w' = about_to_shutdown w.
Proof.
  revert w. induction ts as [|t ts IH]; intros w H.
  - inversion H; reflexivity.
  - simpl in H. unfold bind, write_chunk in H.
    destruct (disk_budget w) as [[|n]|].
    + inversion H; reflexivity.
    + apply IH in H. exact H.
    + apply IH in H. exact H.
Qed.

Lemma run_subscriber_subscribers s (w w' : World) r :
  run_subscriber s w = (w', r) -> about_to_shutdown w' = about_to_shutdown w.
Proof.
  destruct s as [|n [e|]]; simpl; intro H.
  - unfold dump_state, bind in H.
    destruct (build_state w) as [w1 [state|e]] eqn:B;
      apply build_state_world in B; subst; [|now inversion H].
    unfold open_write, bind, emit_event, modify, json_dump in H.
    apply write_chunks_subscribers in H. exact H.
  - inversion H; reflexivity.
  - inversion H; reflexivity.
Qed.

Lemma run_subscribers_subscribers l (w w' : World) r :
  run_subscribers l w = (w', r) -> about_to_shutdown w' = about_to_shutdown w.
Proof.
  revert w. induction l as [|s l IH]; intros w H.
  - inversion H; reflexivity.
  - simpl in H. unfold bind in H.
    destruct (run_subscriber s w) as [w1 [[]|e]] eqn:E;
      apply run_subscriber_subscribers in E.
    + apply IH in H. congruence.
    + inversion H; subst. exact E.
Qed.

Lemma run_subscribers_events l (w w' : World) :
  run_subscribers l w = (w', Ok tt) ->
  exists mid,
    events w' = events w ++ mid /\
    (In dump_state_subscriber l -> In EvOpenWrite mid).
Proof.
  revert w. induction l as [|s l IH]; intros w H.
  - inversion H; subst. exists []. split; [now rewrite app_nil_r|].
    intros [].
  - simpl in H. unfold bind in H.
    destruct (run_subscriber s w) as [w1 [[]|e]] eqn:E; [|discriminate].
    destruct (IH _ H) as (mid & Hev & Hin).
    destruct s as [|n [e|]]; simpl in E.
    + destruct (dump_state_inv _ _ E) as (_ & _ & _ & _ & _ & Ev1).
      exists (EvOpenWrite :: mid). split.
      * rewrite Hev, Ev1, <- app_assoc. reflexivity.
      * intros _. now left.
    + discriminate.
    + inversion E; subst. exists (EvForeign n :: mid). split.
      * rewrite Hev. cbn. rewrite <- app_assoc. reflexivity.
      * intros [D|D]; [discriminate | right; auto].
Qed.

(** C7 (as the code has it).  [_shutdown_app] keeps no record of having
    run: a second call performs the whole sequence again.  It emits
    [about_to_shutdown] again, so that [dump_state], when subscribed, opens
    and rewrites the state file again, and it stops the player, shuts it
    down and tears the asynchronous support down again. *)
Theorem shutdown_twice_repeats (w w1 w2 : World) :
  _shutdown_app w = (w1, Ok tt) ->
  _shutdown_app w1 = (w2, Ok tt) ->
  exists mid,
    events w2 = events w1 ++ mid ++ [EvStop; EvShutdown; EvTeardownAio] /\
    (In dump_state_subscriber (about_to_shutdown w) -> In EvOpenWrite mid).
Proof.
  intros H1 H2.
  assert (Hsubs : about_to_shutdown w1 = about_to_shutdown w).
  { destruct (run_subscribers (about_to_shutdown w) w) as [w0 r] eqn:E.
    rewrite (shutdown_app_after_emission _ _ _ E) in H1.
    apply run_subscribers_subscribers in E.
    destruct r as [[]|e]; inversion H1; subst. exact E. }
  destruct (run_subscribers (about_to_shutdown w1) w1) as [w1' r] eqn:E.
  rewrite (shutdown_app_after_emission _ _ _ E) in H2.
  destruct r as [[]|e]; [|discriminate].
  destruct (run_subscribers_events _ _ _ E) as (mid & Hev & Hin).
  exists mid. split.
  - inversion H2; subst. cbn. rewrite Hev, <- !app_assoc. reflexivity.
  - rewrite <- Hsubs. exact Hin.
Qed.


(** *** The scoped action *)

(** Unfolds [create_action] up to the call of the block, which runs in the
    world [w0] that holds the start report. *)
Ltac enter_block :=
  unfold create_action, bind, gets, show_msg, emit_event, modify;
  cbv beta iota;
  match goal with
  | cls := _ : nat, w0 := _ : World
    |- context [?blk (make_action ?s ?c) ?x] =>
      change (blk (make_action s c) x) with (blk (make_action s cls) w0)
  end.

(** C9 (as the code has it).  [create_action] reports the start of the
    operation and runs the block.  A block that completes is reported as
    done.  A call of the action's [failed] that the block does not handle is
    reported as failed and no exception leaves the wrapper.  Any other
    exception that derives from [Exception] is reported as an error and
    raised again.  An exception that does not derive from [Exception]
    leaves the wrapper without any further report. *)
Theorem create_action_outcomes (s : string) (block : Action -> M unit)
    (w : World) :
  let cls := action_classes w in
  let w0 :=
    set_events (events w ++ [EvShowMsg (s ++ "...")])
      (set_action_classes (S cls) w) in
  (forall w1,
      block (make_action s cls) w0 = (w1, Ok tt) ->
      create_action s block w
      = (set_events (events w1 ++ [EvShowMsg (s ++ "...done")]) w1, Ok tt)) /\
  (forall w1 msg,
      block (make_action s cls) w0 = (w1, Raise (Exn (ActionError cls) msg)) ->
      create_action s block w
      = (set_events
           (events w1 ++ [EvShowMsg (s ++ "...failed" ++ tab ++ msg)]) w1,
         Ok tt)) /\
  (forall w1 e,
      block (make_action s cls) w0 = (w1, Raise e) ->
      is_Exception e = true ->
      (forall msg, e <> Exn (ActionError cls) msg) ->
      create_action s block w
      = (set_events
           (events w1 ++ [EvShowMsg (s ++ "...error" ++ tab ++ str e)]) w1,
         Raise e)) /\
  (forall w1 e,
      block (make_action s cls) w0 = (w1, Raise e) ->
      is_Exception e = false ->
      create_action s block w = (w1, Raise e)) /\
  (forall pre post msg w1,
      pre (make_action s cls) w0 = (w1, Ok tt) ->
      create_action s
        (fun action => bind (pre action)
                         (fun _ => bind (failed action msg)
                                     (fun _ => post action))) w
      = (set_events
           (events w1 ++ [EvShowMsg (s ++ "...failed" ++ tab ++ msg)]) w1,
         Ok tt)).
Proof.
  intros cls w0.
  assert (Own : forall blk w1 msg,
             blk (make_action s cls) w0
             = (w1, Raise (Exn (ActionError cls) msg)) ->
             create_action s blk w
             = (set_events
                  (events w1 ++ [EvShowMsg (s ++ "...failed" ++ tab ++ msg)])
                  w1, Ok tt)).
  { intros blk w1 msg H.
    enter_block. rewrite H.
    rewrite Nat.eqb_refl. reflexivity. }
  split; [|split; [|split; [|split]]].
  - intros w1 H.
    enter_block. rewrite H.
    reflexivity.
  - intros w1 msg. apply Own.
  - intros w1 [c msg] H Hexc Hother.
    enter_block. rewrite H.
    assert (Hown : match c with
                   | ActionError n => Nat.eqb n (action_classes w)
                   | _ => false
                   end = false).
    { destruct c; try reflexivity.
      destruct (Nat.eqb n (action_classes w)) eqn:E; [|reflexivity].
      apply Nat.eqb_eq in E. subst n. now destruct (Hother msg). }
    rewrite Hown, Hexc. reflexivity.
  - intros w1 [c msg] H Hexc.
    enter_block. rewrite H.
    destruct c; try discriminate; reflexivity.
  - intros pre post msg w1 H. apply Own.
    unfold bind. rewrite H. reflexivity.
Qed.

End Properties.

(** ** The properties on concrete sessions *)

Import Demo.

Lemma scenario_persisted :
  persisted scenario (8 # 10) sequential (Some "provider://X/42") (Some 15)
    refs42_43.
Proof.
  repeat split. eexists. split; reflexivity.
Qed.

Lemma scenario_gone_persisted :
  persisted scenario_gone (8 # 10) sequential (Some "provider://X/42")
    (Some 15) refs42_gone.
Proof.
  repeat split. eexists. split; reflexivity.
Qed.

(** The running session of two songs survives a dump and a load. *)
Lemma dump_then_load_roundtrip_witness :
  reference_of (player_current_song session) (Some "provider://X/42") /\
  references_of (playlist_songs session) refs42_43 /\
  disk_budget session = None /\
  Forall (fun l => resolve l <> None) refs42_43 /\
  exists w1,
    dump_state session = (w1, Ok tt) /\
    forall w2,
      state_file w2 = state_file w1 ->
      exists w3,
        load_state w2 = (w3, Ok tt) /\
        playlist_songs w3 = playlist_songs session /\
        resolved_song (Some "provider://X/42") = player_current_song session.
Proof.
  assert (Hc : reference_of (player_current_song session)
                 (Some "provider://X/42")) by reflexivity.
  assert (Hl : references_of (playlist_songs session) refs42_43)
    by (repeat constructor).
  assert (Hr : Forall (fun l => resolve l <> None) refs42_43)
    by (repeat constructor; discriminate).
  assert (Hcur : forall l, Some "provider://X/42" = Some l ->
                           resolve l <> None)
    by (intros l E; inversion E; discriminate).
  repeat (split; [assumption || reflexivity|]).
  destruct (dump_then_load_roundtrip session (Some "provider://X/42")
              refs42_43 Hc Hl eq_refl Hr Hcur) as (w1 & Hd & Hload).
  exists w1. split; [exact Hd|].
  intros w2 Hf. destruct (Hload w2 Hf) as (w3 & Hrun & _ & _ & _ & _ & Hinv).
  exists w3. split; [exact Hrun|]. apply Hinv.
  intros s l _. destruct s; simpl; intro E; inversion E; reflexivity.
Defined.

(** One of two saved references is of a provider that is gone. *)
Lemma load_state_drops_unresolvable_witness :
  state_file (with_file (encode scenario_gone) fresh)
  = Some (encode scenario_gone) /\
  loads (encode scenario_gone) = Some scenario_gone /\
  exists w',
    load_state (with_file (encode scenario_gone) fresh) = (w', Ok tt) /\
    map Some (playlist_songs w') = [Some song42] /\
    length (playlist_songs w') = 1%nat.
Proof.
  split; [reflexivity|]. split; [reflexivity|].
  destruct (load_state_drops_unresolvable (encode scenario_gone) scenario_gone
              (8 # 10) sequential (Some "provider://X/42") (Some 15)
              refs42_gone (with_file (encode scenario_gone) fresh)
              eq_refl eq_refl scenario_gone_persisted)
    as (w' & Hrun & Hsongs & Hlen & _).
  exists w'. split; [exact Hrun|]. split; [exact Hsongs | exact Hlen].
Defined.

(** No state file, and a state file that was cut. *)
Lemma load_state_absent_or_malformed_witness :
  load_state fresh = (fresh, Ok tt) /\
  load_state (with_file truncated fresh)
  = (set_events [EvLogException "invalid state file"]
       (with_file truncated fresh), Ok tt).
Proof.
  split.
  - apply (proj1 (load_state_absent_or_malformed fresh)). reflexivity.
  - apply (proj2 (load_state_absent_or_malformed (with_file truncated fresh))
             truncated); reflexivity.
Defined.

(** The scenario of the specification: the pre-load, and the hook at the
    echo of the pre-load followed by the change to the next song. *)
Lemma load_state_preloads_current_song_witness :
  exists w',
    load_state (with_file (encode scenario) fresh) = (w', Ok tt) /\
    playlist_songs w' = [song42; song43] /\
    events w' =
      [EvShowPlayerPlaylist; EvPause; EvSetPlayRange (Some 15);
       EvLoadSong song42] /\
    media_about_to_changed w' = [before_media_change_of song42] /\
    exists w2,
      media_transitions
        [@mkTransition resolver (Some song42) None "media42";
         @mkTransition resolver (Some song43) (Some "media42") "media43";
         @mkTransition resolver (Some song42) (Some "media43") "media42"] w'
      = (w2, Ok tt) /\
      events w2 = events w' ++ [EvSetPlayRange None; EvResume].
Proof.
  destruct (load_state_preloads_current_song (encode scenario) scenario
              (8 # 10) sequential (Some "provider://X/42") (Some 15)
              refs42_43 (with_file (encode scenario) fresh)
              eq_refl eq_refl scenario_persisted)
    as (w' & Hrun & Hsongs & Hev & Hrs & Hhook).
  exists w'. split; [exact Hrun|]. split; [exact Hsongs|].
  split; [exact Hev|]. split; [exact Hrs|].
  destruct (Hhook eq_refl
              [@mkTransition resolver (Some song42) None "media42"]
              (@mkTransition resolver (Some song43) (Some "media42") "media43")
              [@mkTransition resolver (Some song42) (Some "media43") "media42"])
    as (_ & w2 & Hrun2 & Hev2 & _).
  - repeat constructor.
  - left. discriminate.
  - exists w2. split; [exact Hrun2 | exact Hev2].
Defined.

(** C3 does not hold of the code as the specification states it.  The
    state file holds the document of an earlier run; the device fails after
    three chunks of the new snapshot.  [dump_state] leaves a partial
    document in the file, and the next [load_state] finds that it does not
    decode. *)
Lemma dump_state_not_atomic :
  loads (encode scenario) = Some scenario /\
  state_file failing_disk = Some (encode scenario) /\
  exists w',
    dump_state failing_disk = (w', Raise (Exn OSError "write failed")) /\
    state_file w' = Some [TLBrace; TStr "playback_mode"; TColon] /\
    loads [TLBrace; TStr "playback_mode"; TColon] = None /\
    events (fst (load_state w'))
    = [EvOpenWrite; EvLogException "invalid state file"].
Proof.
  split; [vm_compute; reflexivity|]. split; [reflexivity|].
  exists (fst (dump_state failing_disk)).
  split; [vm_compute; reflexivity|]. vm_compute. repeat split.
Qed.

Lemma dump_state_interrupted_witness :
  reference_of (player_current_song failing_disk) (Some "provider://X/42") /\
  references_of (playlist_songs failing_disk) refs42_43 /\
  disk_budget failing_disk = Some 3%nat /\
  (3 < length (encode (snapshot failing_disk (Some "provider://X/42")
                         refs42_43)))%nat /\
  exists w',
    dump_state failing_disk = (w', Raise (Exn OSError "write failed")) /\
    state_file w' = Some [TLBrace; TStr "playback_mode"; TColon].
Proof.
  assert (Hc : reference_of (player_current_song failing_disk)
                 (Some "provider://X/42")) by reflexivity.
  assert (Hl : references_of (playlist_songs failing_disk) refs42_43)
    by (repeat constructor).
  assert (Hk : (3 < length (encode (snapshot failing_disk
                                      (Some "provider://X/42")
                                      refs42_43)))%nat)
    by (vm_compute; lia).
  repeat (split; [assumption || reflexivity|]).
  destruct (dump_state_interrupted failing_disk (Some "provider://X/42")
              refs42_43 3 Hc Hl eq_refl Hk) as (w' & Hd & Hf & _).
  exists w'. split; [exact Hd | exact Hf].
Defined.

(** C6 does not hold of the code as the specification states it.  The
    current song cannot be reversed, so [dump_state] raises; the subscriber
    registered after it does not run and the player is not stopped:
    [_shutdown_app] raises and nothing at all has happened. *)
Lemma shutdown_aborted_by_subscriber :
  about_to_shutdown local_session
  = [dump_state_subscriber; foreign_subscriber 7 None] /\
  exists w' e,
    _shutdown_app local_session = (w', Raise e) /\
    ~ In (EvForeign 7) (events w') /\
    ~ In EvStop (events w') /\
    ~ In EvShutdown (events w') /\
    ~ In EvTeardownAio (events w').
Proof.
  split; [reflexivity|].
  exists local_session,
    (Exn NotReversible "provider cannot export a reference").
  split; [vm_compute; reflexivity|].
  repeat split; intros [].
Qed.

(** The failing subscriber of the session above, and a session all of whose
    subscribers succeed. *)
Lemma shutdown_propagates_subscriber_failure_witness :
  (about_to_shutdown local_session
   = [] ++ dump_state_subscriber :: [foreign_subscriber 7 None] /\
   run_subscribers [] local_session = (local_session, Ok tt) /\
   run_subscriber dump_state_subscriber local_session
   = (local_session,
      Raise (Exn NotReversible "provider cannot export a reference")) /\
   _shutdown_app local_session
   = (local_session,
      Raise (Exn NotReversible "provider cannot export a reference"))) /\
  (run_subscribers (about_to_shutdown session) session
   = (fst (dump_state session), Ok tt) /\
   exists w2,
     _shutdown_app session = (w2, Ok tt) /\
     events w2 =
       events (fst (dump_state session))
         ++ [EvStop; EvShutdown; EvTeardownAio]).
Proof.
  split.
  - repeat (split; [reflexivity|]).
    apply (proj1 (shutdown_propagates_subscriber_failure local_session)
             [] dump_state_subscriber [foreign_subscriber 7 None]
             local_session); reflexivity.
  - assert (H : run_subscribers (about_to_shutdown session) session
                = (fst (dump_state session), Ok tt))
      by (vm_compute; reflexivity).
    split; [exact H|].
    apply (proj2 (shutdown_propagates_subscriber_failure session) _ H).
Defined.

(** C7 does not hold of the code as the specification states it.  The
    second call stops the player again and opens the state file for writing
    again. *)
Lemma shutdown_not_idempotent :
  exists w1 w2,
    _shutdown_app session = (w1, Ok tt) /\
    _shutdown_app w1 = (w2, Ok tt) /\
    events w1 = [EvOpenWrite; EvStop; EvShutdown; EvTeardownAio] /\
    events w2 =
      [EvOpenWrite; EvStop; EvShutdown; EvTeardownAio;
       EvOpenWrite; EvStop; EvShutdown; EvTeardownAio] /\
    events w2 <> events w1.
Proof.
  exists (fst (_shutdown_app session)).
  exists (fst (_shutdown_app (fst (_shutdown_app session)))).
  vm_compute. repeat split. discriminate.
Qed.

Lemma shutdown_twice_repeats_witness :
  exists w1 w2 mid,
    _shutdown_app session = (w1, Ok tt) /\
    _shutdown_app w1 = (w2, Ok tt) /\
    events w2 = events w1 ++ mid ++ [EvStop; EvShutdown; EvTeardownAio] /\
    In EvOpenWrite mid.
Proof.
  pose (w1 := fst (_shutdown_app session)).
  pose (w2 := fst (_shutdown_app w1)).
  assert (H1 : _shutdown_app session = (w1, Ok tt))
    by (vm_compute; reflexivity).
  assert (H2 : _shutdown_app w1 = (w2, Ok tt))
    by (vm_compute; reflexivity).
  destruct (shutdown_twice_repeats session w1 w2 H1 H2) as (mid & Hev & Hin).
  exists w1, w2, mid.
  split; [exact H1|]. split; [exact H2|]. split; [exact Hev|].
  apply Hin. now left.
Defined.

(** C8 does not hold of the code as the specification states it.  The
    persisted record has a sixth key, [state], which the schema does not
    list. *)
Lemma dump_state_writes_state_key :
  exists w' ts state,
    dump_state session = (w', Ok tt) /\
    state_file w' = Some ts /\
    loads ts = Some state /\
    keys state
    = ["playback_mode"; "volume"; "state"; "song"; "position"; "playlist"] /\
    getitem state "state" = Ok (JNum 2) /\
    ~ In "state" ["volume"; "playback_mode"; "song"; "position"; "playlist"].
Proof.
  exists (fst (dump_state session)).
  exists (encode (snapshot session (Some "provider://X/42") refs42_43)).
  exists (snapshot session (Some "provider://X/42") refs42_43).
  split; [vm_compute; reflexivity|]. split; [vm_compute; reflexivity|].
  split; [vm_compute; reflexivity|]. split; [reflexivity|].
  split; [reflexivity|].
  simpl. intros [H|[H|[H|[H|[H|[]]]]]]; discriminate H.
Qed.

Lemma dump_state_record_witness :
  exists w' song lines,
    dump_state session = (w', Ok tt) /\
    state_file w'
    = Some (encode
              (JObj [ ("playback_mode", JNum 2);
                      ("volume", JNum (8 # 10));
                      ("state", JNum 2);
                      ("song", json_of_reference song);
                      ("position", JNum 15);
                      ("playlist", JArr (map JStr lines)) ])).
Proof.
  pose (w' := fst (dump_state session)).
  assert (H : dump_state session = (w', Ok tt))
    by (vm_compute; reflexivity).
  destruct (dump_state_record session w' H) as (song & lines & Hf & _).
  exists w', song, lines. split; [exact H | exact Hf].
Defined.

(** C9 does not hold of the code as the specification states it.  A
    [KeyboardInterrupt] raised in the block leaves the wrapper without any
    report after the start report. *)
Lemma create_action_base_exception_unreported :
  exists w',
    create_action "Sync" (fun _ => raise (Exn KeyboardInterrupt "")) fresh
    = (w', Raise (Exn KeyboardInterrupt "")) /\
    events w' = [EvShowMsg "Sync..."].
Proof.
  exists (fst (create_action "Sync"
                 (fun _ => raise (Exn KeyboardInterrupt "")) fresh)).
  split; vm_compute; reflexivity.
Qed.

(** The five ways out of a block. *)
Lemma create_action_outcomes_witness :
  create_action "Sync" (fun _ => ret tt) fresh
  = (set_events [EvShowMsg "Sync..."; EvShowMsg "Sync...done"]
       (set_action_classes 1 fresh), Ok tt) /\
  create_action "Sync" (fun action => failed action "no network") fresh
  = (set_events
       [EvShowMsg "Sync...";
        EvShowMsg ("Sync...failed" ++ tab ++ "no network")]
       (set_action_classes 1 fresh), Ok tt) /\
  create_action "Sync" (fun _ => raise (Exn RuntimeError "boom")) fresh
  = (set_events
       [EvShowMsg "Sync..."; EvShowMsg ("Sync...error" ++ tab ++ "boom")]
       (set_action_classes 1 fresh), Raise (Exn RuntimeError "boom")) /\
  create_action "Sync" (fun _ => raise (Exn KeyboardInterrupt "")) fresh
  = (set_events [EvShowMsg "Sync..."] (set_action_classes 1 fresh),
     Raise (Exn KeyboardInterrupt "")) /\
  create_action "Sync"
    (fun action => bind (set_progress action (1 # 2))
                     (fun _ => bind (failed action "no network")
                                 (fun _ => show_msg "unreachable"))) fresh
  = (set_events
       [EvShowMsg "Sync..."; EvShowMsg "Sync...50%";
        EvShowMsg ("Sync...failed" ++ tab ++ "no network")]
       (set_action_classes 1 fresh), Ok tt).
Proof.
  pose proof (create_action_outcomes "Sync" (fun _ => ret tt) fresh) as Hdone.
  pose proof (create_action_outcomes "Sync"
                (fun action => failed action "no network") fresh) as Hown.
  pose proof (create_action_outcomes "Sync"
                (fun _ => raise (Exn RuntimeError "boom")) fresh) as Herr.
  pose proof (create_action_outcomes "Sync"
                (fun _ => raise (Exn KeyboardInterrupt "")) fresh) as Hbase.
  pose proof (create_action_outcomes "Sync" (fun _ => ret tt) fresh) as Hfail.
  cbv zeta in Hdone, Hown, Herr, Hbase, Hfail.
  destruct Hdone as (Hdone & _).
  destruct Hown as (_ & Hown & _).
  destruct Herr as (_ & _ & Herr & _).
  destruct Hbase as (_ & _ & _ & Hbase & _).
  destruct Hfail as (_ & _ & _ & _ & Hfail).
  split; [|split; [|split; [|split]]].
  - etransitivity; [apply Hdone; reflexivity | vm_compute; reflexivity].
  - etransitivity; [apply Hown; reflexivity | vm_compute; reflexivity].
  - etransitivity;
      [apply Herr;
       [reflexivity | reflexivity | intros msg E; discriminate E]
      | vm_compute; reflexivity].
  - etransitivity;
      [apply Hbase; reflexivity | vm_compute; reflexivity].
  - etransitivity;
      [apply (Hfail (fun action => set_progress action (1 # 2))
                (fun _ => show_msg "unreachable") "no network");
       reflexivity
      | vm_compute; reflexivity].
Defined.

(** C10 does not hold of the code as it is stated.  The current song
    cannot be reversed: [dump_state] raises and the state file keeps the
    document of the earlier run. *)
Lemma dump_state_keeps_file_when_reverse_raises :
  state_file local_session = Some (encode scenario) /\
  exists w' e,
    dump_state local_session = (w', Raise e) /\
    state_file w' = Some (encode scenario) /\
    events w' = [].
Proof.
  split; [reflexivity|].
  exists local_session,
    (Exn NotReversible "provider cannot export a reference").
  split; [vm_compute; reflexivity|]. split; reflexivity.
Qed.

(** A session whose songs can be reversed, an empty session that erases the
    document of the earlier run, and the session whose current song cannot
    be reversed. *)
Lemma dump_state_overwrites_witness :
  (reference_of (player_current_song session) (Some "provider://X/42") /\
   references_of (playlist_songs session) refs42_43 /\
   disk_budget session = None /\
   exists w',
     dump_state session = (w', Ok tt) /\
     state_file w'
     = Some (encode (snapshot session (Some "provider://X/42") refs42_43))) /\
  (player_current_song empty_session = None /\
   playlist_songs empty_session = [] /\
   disk_budget empty_session = None /\
   state_file empty_session = Some (encode scenario) /\
   exists w' state,
     dump_state empty_session = (w', Ok tt) /\
     state_file w' = Some (encode state) /\
     getitem state "song" = Ok JNull /\
     getitem state "playlist" = Ok (JArr [])) /\
  (player_current_song local_session = Some local_song /\
   reverse local_song = None /\
   exists e, dump_state local_session = (local_session, Raise e)).
Proof.
  split; [|split].
  - assert (Hc : reference_of (player_current_song session)
                   (Some "provider://X/42")) by reflexivity.
    assert (Hl : references_of (playlist_songs session) refs42_43)
      by (repeat constructor).
    split; [exact Hc|]. split; [exact Hl|]. split; [reflexivity|].
    apply (proj1 (dump_state_overwrites session) _ _ Hc Hl eq_refl).
  - repeat (split; [reflexivity|]).
    destruct (proj1 (proj2 (dump_state_overwrites empty_session))
                eq_refl eq_refl eq_refl)
      as (w' & state & Hd & Hf & _ & Hsong & Hpl).
    exists w', state.
    split; [exact Hd|]. split; [exact Hf|].
    split; [exact Hsong | exact Hpl].
  - split; [reflexivity|]. split; [reflexivity|].
    apply (proj2 (proj2 (dump_state_overwrites local_session)) local_song).
    + left. reflexivity.
    + reflexivity.
Defined.

(** ** Further properties of the session persistence *)

Section MoreProperties.

Context {R : Resolver}.
Import JsonFacts.

Lemma same_session_refl (w : World) : same_session w w.
Proof. unfold same_session. repeat split; reflexivity. Qed.

Lemma same_session_trans (a b c : World) :
  same_session a b -> same_session b c -> same_session a c.
Proof. unfold same_session. intuition congruence. Qed.




Lemma keeps_lift {A} (rel : World -> World -> Prop) (r : result A) :
  (forall w, rel w w) -> keeps rel (lift r).
Proof. intros Hrefl w. apply Hrefl. Qed.

Lemma write_chunks_session ts : keeps same_session (write_chunks ts).
Proof.
  induction ts as [|t ts IH]; intro w; [apply same_session_refl|].
  simpl. unfold bind, write_chunk.
  destruct (disk_budget w) as [[|n]|]; simpl.
  - apply same_session_refl.
  - eapply same_session_trans; [|apply IH].
    unfold same_session; cbn; repeat split; reflexivity.
  - eapply same_session_trans; [|apply IH].
    unfold same_session; cbn; repeat split; reflexivity.
Qed.

Lemma dump_state_session (w w' : World) r :
  dump_state w = (w', r) -> same_session w w'.
Proof.
  unfold dump_state, bind. intro H.
  destruct (build_state w) as [w1 [state|e]] eqn:B;
    apply build_state_world in B; subst w1.
  - unfold open_write, bind, emit_event, modify, json_dump in H.
    match type of H with
    | write_chunks ?ts ?w0 = _ =>
        pose proof (write_chunks_session ts w0) as S; rewrite H in S
    end.
    eapply same_session_trans; [|exact S].
    unfold same_session; cbn; repeat split; reflexivity.
  - inversion H; subst. apply same_session_refl.
Qed.

(** X2. [dump_state] only reads the live session: whether it returns or
    raises, the mode of the application, every attribute of the player and
    of the playlist, the receivers of [media_about_to_changed] and the
    subscribers of [about_to_shutdown] are what they were. *)
Theorem dump_state_keeps_session (w : World) :
  same_session w (fst (dump_state w)).
Proof.
  destruct (dump_state w) as [w' r] eqn:E.
  exact (dump_state_session _ _ _ E).
Qed.



(** X4. Dumping twice in a row writes the same document twice: the second
    [dump_state] leaves the content of the state file as the first one
    wrote it. *)
Theorem dump_state_twice (w w1 w2 : World) :
  dump_state w = (w1, Ok tt) ->
  dump_state w1 = (w2, Ok tt) ->
  state_file w2 = state_file w1.
Proof.
  intros H1 H2.
  pose proof (dump_state_session _ _ _ H1) as S.
  destruct (dump_state_inv _ _ H1) as (c1 & l1 & Hc1 & Hl1 & Hf1 & _).
  destruct (dump_state_inv _ _ H2) as (c2 & l2 & Hc2 & Hl2 & Hf2 & _).
  destruct S as (_ & Sv & Ss & Sp & Sc & _ & Sm & Sl & _).
  rewrite Sc in Hc2. rewrite Sl in Hl2.
  assert (c2 = c1).
  { unfold reference_of in *.
    destruct (player_current_song w), c1, c2; try contradiction;
      congruence. }
  assert (l2 = l1).
  { clear - Hl1 Hl2. revert l2 Hl2.
    induction Hl1 as [|s l songs lines Hs _ IH]; intros l2 Hl2;
      inversion Hl2; subst; [reflexivity|].
    f_equal; [congruence | now apply IH]. }
  subst. rewrite Hf1, Hf2. unfold snapshot.
  rewrite Sv, Ss, Sp, Sm. reflexivity.
Qed.

Lemma references_unique songs l1 l2 :
  references_of songs l1 -> references_of songs l2 -> l1 = l2.
Proof.
  intro H1. revert l2.
  induction H1 as [|s l songs lines Hs _ IH]; intros l2 H2;
    inversion H2; subst; [reflexivity|].
  f_equal; [congruence | now apply IH].
Qed.

Lemma references_length songs lines :
  references_of songs lines -> length lines = length songs.
Proof. induction 1; simpl; congruence. Qed.

(** X1. [load_state] accepts whatever [dump_state] wrote: at the next start
    it returns without raising, restores the volume and the playback mode,
    and installs the songs that the saved references still resolve to, in
    their order, so never more songs than were dumped.  No reference has to
    resolve for this. *)
Theorem load_state_accepts_dump (w w1 w2 : World) :
  dump_state w = (w1, Ok tt) ->
  state_file w2 = state_file w1 ->
  exists w3 lines,
    load_state w2 = (w3, Ok tt) /\
    references_of (playlist_songs w) lines /\
    playlist_songs w3 = resolved lines /\
    (length (playlist_songs w3) <= length (playlist_songs w))%nat /\
    player_volume w3 = player_volume w /\
    playlist_playback_mode w3 = playlist_playback_mode w.
Proof.
  intros Hd Hf.
  destruct (dump_state_inv _ _ Hd) as (current & lines & _ & Hl & Hf1 & _).
  rewrite Hf1 in Hf.
  destruct (load_state_persisted _ _ _ _ _ _ _ w2 Hf
              (loads_encode _) (snapshot_persisted w current lines))
    as (w3 & Hrun & Hvol & Hmode & Hsongs & _).
  exists w3, lines. repeat split; try assumption.
  rewrite Hsongs, <- (references_length _ _ Hl).
  pose proof (resolved_count lines). lia.
Qed.

(** *** Edge behaviour of [load_state] *)




(** X6. The result of restoring a decoded state depends on nothing but the
    values under [volume], [playback_mode], [playlist], [song] and
    [position]: two documents that agree on these five keys are restored
    alike, whatever other keys (such as [state]) they carry. *)
Theorem load_state_reads_five_keys (st1 st2 : json) (w : World) :
  (forall k, In k read_keys -> getitem st1 k = getitem st2 k) ->
  load_state_else st1 w = load_state_else st2 w.
Proof.
  intro H. unfold load_state_else.
  rewrite (H "volume"), (H "playback_mode"), (H "playlist"), (H "song"),
    (H "position"); try reflexivity; simpl; auto 6.
Qed.

(** X7. Only a missing file and a document that does not decode are
    tolerated: when the file holds a JSON document that is not an object
    (an array, a string, a number, a boolean or null), [load_state] raises
    [TypeError] and has changed nothing. *)
Theorem load_state_rejects_non_object (w : World) ts state :
  state_file w = Some ts ->
  loads ts = Some state ->
  is_object state = false ->
  exists msg, load_state w = (w, Raise (Exn TypeError msg)).
Proof.
  intros Hf Hl Hobj. unfold load_state, read_state_file. rewrite Hf, Hl.
  destruct state; try discriminate; eexists; reflexivity.
Qed.

(** X8. The restoration is not all-or-nothing: when the value under
    [playback_mode] is missing or is not the ordinal of a playback mode,
    [load_state] raises ([KeyError], [ValueError]) after it has set the
    volume of the player, and before it touches the playlist. *)
Theorem load_state_invalid_mode (w : World) ts state volume e :
  state_file w = Some ts ->
  loads ts = Some state ->
  getitem state "volume" = Ok (JNum volume) ->
  (getitem state "playback_mode" = Raise e \/
   exists m, getitem state "playback_mode" = Ok m
             /\ PlaybackMode_of m = Raise e) ->
  load_state w = (set_player_volume volume w, Raise e).
Proof.
  intros Hf Hl Hv Hm. unfold load_state, read_state_file. rewrite Hf, Hl.
  unfold load_state_else, bind, lift. rewrite Hv.
  cbn [player_set_volume modify].
  destruct Hm as [Hm|(m & Hm & Hmode)].
  - rewrite Hm. reflexivity.
  - rewrite Hm, Hmode. reflexivity.
Qed.

(** X9. The saved position is read late and only when needed.  In a state
    without [position], a current reference that is null or does not
    resolve does no harm: the playlist is installed and [load_state]
    returns.  When the reference resolves, [load_state] raises [KeyError]
    after it has installed the playlist, connected its hook and paused the
    player: no play range is set and no song is loaded. *)
Theorem load_state_missing_position
    (w : World) ts state volume m mode song refs e :
  state_file w = Some ts ->
  loads ts = Some state ->
  getitem state "volume" = Ok (JNum volume) ->
  getitem state "playback_mode" = Ok m ->
  PlaybackMode_of m = Ok mode ->
  getitem state "playlist" = Ok (JArr (map JStr refs)) ->
  getitem state "song" = Ok (json_of_reference song) ->
  getitem state "position" = Raise e ->
  exists w',
    load_state w
    = (w', match resolved_song song with
           | Some _ => Raise e
           | None => Ok tt
           end) /\
    playlist_songs w' = resolved refs /\
    media_about_to_changed w' =
      media_about_to_changed w
        ++ match resolved_song song with
           | Some s => [before_media_change_of s]
           | None => []
           end /\
    events w' =
      events w ++ shown_playlist (app_mode w) (resolved refs)
        ++ match resolved_song song with
           | Some _ => [EvPause]
           | None => []
           end.
Proof.
  intros Hf Hl Hv Hm Hmode Hpl Hsong Hpos.
  assert (E : load_state w = load_state_else state w).
  { unfold load_state, read_state_file. rewrite Hf, Hl. reflexivity. }
  rewrite E. clear E Hf Hl.
  unfold load_state_else, bind, lift.
  rewrite Hv. cbn [player_set_volume modify].
  rewrite Hm, Hmode, Hpl. cbn [iterate].
  rewrite resolve_each_refs. cbn [app playlist_init_from modify gets].
  cbn [app_mode set_playlist_songs set_playlist_playback_mode
       set_player_volume].
  unfold shown_playlist.
  destruct (negb (length (resolved refs) =? 0)%nat
            && negb (Z.land (app_mode w) GuiMode =? 0)%Z);
    cbn [show_player_playlist emit_event modify ret];
    rewrite Hsong;
    (destruct song as [line|]; cbn [resolved_song json_of_reference];
     [destruct (resolve line) as [s|]|]);
    cbn [connect player_pause emit_event modify ret];
    rewrite ?Hpos;
    eexists; (split; [reflexivity|]); cbn;
    rewrite <- ?app_assoc, ?app_nil_r; repeat split; reflexivity.
Qed.

(** *** The hook among other receivers *)

Lemma run_receivers_app a b old_media media (w : World) :
  run_receivers (a ++ b) old_media media w
  = bind (run_receivers a old_media media)
      (fun _ => run_receivers b old_media media) w.
Proof.
  revert w. induction a as [|r a IH]; intro w; [reflexivity|].
  simpl. unfold bind.
  destruct (run_receiver r old_media media w) as [w1 [[]|e]]; [|reflexivity].
  rewrite IH. reflexivity.
Qed.

Lemma run_foreign_receivers rs old_media media (w : World) :
  Forall (fun r => is_foreign r = true) rs ->
  exists w',
    run_receivers rs old_media media w = (w', Ok tt) /\
    events w' = events w ++ flat_map foreign_event rs /\
    media_about_to_changed w' = media_about_to_changed w /\
    playlist_current_song w' = playlist_current_song w.
Proof.
  intro H. revert w. induction H as [|r rs Hr _ IH]; intro w.
  - exists w. simpl. rewrite app_nil_r. repeat split; reflexivity.
  - destruct r as [s|n]; [discriminate|].
    simpl. unfold bind, emit_event, modify.
    destruct (IH (set_events (events w ++ [EvForeign n]) w))
      as (w' & E & Hev & Hrs & Hcur).
    exists w'. rewrite E. split; [reflexivity|].
    rewrite Hev, Hrs, Hcur. cbn. rewrite <- app_assoc.
    repeat split; reflexivity.
Qed.

Lemma remove_first_foreign s before after :
  Forall (fun r => is_foreign r = true) before ->
  remove_first (before_media_change_of s)
    (before ++ before_media_change_of s :: after)
  = before ++ after.
Proof.
  induction 1 as [|r before Hr _ IH]; simpl.
  - now rewrite Song_eqb_refl.
  - destruct r as [x|n]; [discriminate|]. simpl. now rewrite IH.
Qed.

(** X10. The hook of [load_state] does not disturb the other receivers of
    [media_about_to_changed].  At a change that is not the echo of the
    pre-load the receivers connected before it run, then the hook resets
    the play range and resumes the player, then the receivers connected
    after it run, in the same emission; afterwards exactly the hook is gone
    from the signal.  At an echo of the pre-load the other receivers run
    and the signal keeps all its receivers. *)
Theorem hook_among_receivers s t (w : World) before after :
  media_about_to_changed w = before ++ before_media_change_of s :: after ->
  Forall (fun r => is_foreign r = true) before ->
  Forall (fun r => is_foreign r = true) after ->
  (tr_old_media t <> None \/ tr_current t <> Some s ->
   exists w',
     media_transition t w = (w', Ok tt) /\
     events w' =
       events w ++ flat_map foreign_event before
         ++ [EvSetPlayRange None; EvResume]
         ++ flat_map foreign_event after /\
     media_about_to_changed w' = before ++ after) /\
  (echo_of s t ->
   exists w',
     media_transition t w = (w', Ok tt) /\
     events w' = events w ++ flat_map foreign_event (before ++ after) /\
     media_about_to_changed w' = media_about_to_changed w).
Proof.
  intros Hrs Hb Ha.
  set (w0 := set_playlist_current_song (tr_current t) w).
  destruct (run_foreign_receivers before (tr_old_media t) (tr_media t) w0 Hb)
    as (w1 & E1 & Hev1 & Hrs1 & Hcur1).
  assert (Start : forall k : M unit,
             media_transition t w
             = (let (w2, r) :=
                  before_media_change s (tr_old_media t) (tr_media t) w1 in
                match r with
                | Ok _ => run_receivers after (tr_old_media t) (tr_media t) w2
                | Raise e => (w2, Raise e)
                end)).
  { intros _.
    unfold media_transition, emit_media_about_to_changed, bind, modify, gets.
    fold w0. replace (media_about_to_changed w0)
      with (before ++ before_media_change_of s :: after) by (symmetry; exact Hrs).
    rewrite run_receivers_app. unfold bind. rewrite E1.
    reflexivity. }
  rewrite (Start (ret tt)). clear Start.
  unfold before_media_change, bind, gets. rewrite Hcur1.
  cbn [playlist_current_song set_playlist_current_song w0].
  split.
  - intro Hreal.
    assert (C : is_Some (tr_old_media t)
                || negb (opt_eqb Song_eqb (tr_current t) (Some s)) = true).
    { destruct Hreal as [Ho|Hc].
      - destruct (tr_old_media t); [reflexivity | congruence].
      - rewrite (opt_eqb_neq _ _ Hc). apply orb_true_r. }
    rewrite C.
    unfold disconnect, player_set_play_range, player_resume, emit_event,
      modify. cbv beta iota.
    match goal with
    | |- context [run_receivers after _ _ ?x] =>
        destruct (run_foreign_receivers after (tr_old_media t) (tr_media t)
                    x Ha) as (w3 & E3 & Hev3 & Hrs3 & _)
    end.
    exists w3. split; [exact E3|]. rewrite Hev3, Hrs3. cbn.
    rewrite Hev1, Hrs1. subst w0. cbn. rewrite Hrs.
    rewrite (remove_first_foreign s before after Hb).
    rewrite <- !app_assoc. split; reflexivity.
  - intros [Ho Hc]. rewrite Ho, Hc. cbn [is_Some orb opt_eqb].
    rewrite Song_eqb_refl. cbn [negb ret].
    destruct (run_foreign_receivers after None (tr_media t) w1 Ha)
      as (w3 & E3 & Hev3 & Hrs3 & _).
    exists w3. split; [exact E3|].
    rewrite Hev3, Hrs3, Hev1, Hrs1. subst w0. cbn.
    rewrite flat_map_app, <- !app_assoc. split; reflexivity.
Qed.

(** *** Nested actions *)

Lemma eqb_succ_false n : Nat.eqb n (S n) = false.
Proof. apply Nat.eqb_neq. lia. Qed.

(** X11. Each call of [create_action] has its own [ActionError] class.  When
    the block of an inner action calls [failed] of the outer action, the
    inner wrapper does not take it for its own failure: it reports an error
    and raises again, and the outer wrapper reports the failure; no
    exception leaves the outer wrapper. *)
Theorem outer_failure_crosses_inner_action (a b msg : string) (w : World) :
  let run :=
    create_action a
      (fun outer => create_action b (fun _ => failed outer msg)) w in
  snd run = Ok tt /\
  events (fst run) =
    events w ++ [EvShowMsg (a ++ "...");
                 EvShowMsg (b ++ "...");
                 EvShowMsg (b ++ "...error" ++ tab ++ msg);
                 EvShowMsg (a ++ "...failed" ++ tab ++ msg)].
Proof.
  cbv zeta.
  unfold create_action, bind, gets, show_msg, emit_event, modify,
    make_action, failed, raise.
  cbn. rewrite eqb_succ_false, Nat.eqb_refl. cbn.
  rewrite <- !app_assoc. split; reflexivity.
Qed.

(** X12. A failure reported through the inner action stays inside it: the
    inner wrapper reports the failure and returns, and the outer action,
    whose block has completed, is reported as done. *)
Theorem inner_failure_is_contained (a b msg : string) (w : World) :
  let run :=
    create_action a
      (fun _ => create_action b (fun inner => failed inner msg)) w in
  snd run = Ok tt /\
  events (fst run) =
    events w ++ [EvShowMsg (a ++ "...");
                 EvShowMsg (b ++ "...");
                 EvShowMsg (b ++ "...failed" ++ tab ++ msg);
                 EvShowMsg (a ++ "...done")].
Proof.
  cbv zeta.
  unfold create_action, bind, gets, show_msg, emit_event, modify,
    make_action, failed, raise.
  cbn. rewrite Nat.eqb_refl. cbn.
  rewrite <- !app_assoc. split; reflexivity.
Qed.

(** *** Leaving the loop *)

(** X13. When the shutdown sequence itself raises inside the [finally]
    clause of [run_app_once], [loop.stop()] and [loop.close()] are not
    called, and the exception of the shutdown is the one that leaves
    [run_app_once], whatever the future had returned or raised. *)
Theorem run_app_once_shutdown_failure
    (future : M unit) (w w0 w1 : World) r e :
  future w = (w0, r) ->
  _shutdown_app w0 = (w1, Raise e) ->
  run_app_once future w = (w1, Raise e).
Proof.
  intros Hf Hs. unfold run_app_once, try_finally, bind. rewrite Hf.
  destruct r as [[]|[c msg]]; [|destruct c]; rewrite Hs; reflexivity.
Qed.


End MoreProperties.

(** ** Construction and start of the application *)

Lemma land_daemon_or_gui (mode : Z) :
  Z.land mode 17%Z = Z.lor (Z.land mode 1%Z) (Z.land mode 16%Z).
Proof. change 17%Z with (Z.lor 1 16). apply Z.land_lor_distr_r. Qed.

(** Evaluates the start of the application for a configuration and an
    environment given by their fields: the mode tests and the platform
    tests are decided first, the rest is computation. *)
Ltac boot_cases mode plat mac lin :=
  unfold boot, ready, create_app, attach_attrs, init_app, run_app_start,
    start_platform_services, warn_headless, when_mode, listen_addr,
    daemon_bit, gui_bit, mode_has, DaemonMode, GuiMode;
  cbn [platform global_hotkey_mac_import linux_import MODE
       ALLOW_LAN_CONNECT];
  change (Z.lor 1 16) with 17%Z; change (Z.lor 16 1) with 17%Z;
  rewrite ?(land_daemon_or_gui mode);
  destruct (Z.land mode 1%Z); destruct (Z.land mode 16%Z);
  try (destruct (String.eqb plat "darwin"));
  try (destruct (String.eqb plat "linux"));
  try (destruct mac); try (destruct lin);
  vm_compute.

Section Start.

Local Open Scope Z_scope.


(** X16. In daemon mode the command server and the publish/subscribe
    server are started, in this order, on the address that
    [get_listen_addr] gives for the configuration, the second one on port
    23334; without the daemon bit, and when the start fails, no listener is
    started. *)
Theorem boot_listeners (config : Config) (env : Env) :
  filter is_listener (effects (fst (boot config env))) =
    match snd (boot config env) with
    | Booted _ =>
        if daemon_bit config then
          [SysServerRun (get_listen_addr config);
           SysStartServer (get_listen_addr config) 23334]
        else []
    | BootError _ => []
    end.
Proof.
  destruct config as [mode lan dev], env as [plat mac lin].
  destruct lan; boot_cases mode plat mac lin; reflexivity.
Qed.

(** X17. Every start either schedules the release check, ten seconds
    ahead, or logs that the program runs with no daemon and no window, and
    never both: the check is scheduled exactly when the daemon bit or the
    GUI bit of the mode is set. *)
Theorem boot_release_check_or_warning (config : Config) (env : Env) :
  filter is_release_check (effects (fst (boot config env))) =
    (if daemon_bit config || gui_bit config
     then [SysCallLater 10 "version_mgr.check_release"] else []) /\
  (length (filter is_release_check (effects (fst (boot config env))))
   + length (filter is_headless_warning (effects (fst (boot config env))))
   = 1)%nat.
Proof.
  destruct config as [mode lan dev], env as [plat mac lin].
  boot_cases mode plat mac lin; split; reflexivity.
Qed.

(** X18. [create_app] attaches the optional subsystems by mode bit: the
    server, the gateway and the lyric publisher exactly with the daemon
    bit, the user interface exactly with the GUI bit, and the version
    manager exactly when one of the two bits is set; the class of the
    object has the widget methods exactly with the GUI bit.  It never fails
    on a missing attribute. *)
Theorem create_app_attaches_by_mode (config : Config) :
  let o := fst (create_app config) in
  snd (create_app config) = Booted tt /\
  has_attr o "server" = daemon_bit config /\
  has_attr o "pubsub_gateway" = daemon_bit config /\
  has_attr o "_ll_publisher" = daemon_bit config /\
  has_attr o "ui" = gui_bit config /\
  has_attr o "show" = gui_bit config /\
  has_attr o "version_mgr" = daemon_bit config || gui_bit config.
Proof.
  destruct config as [mode lan dev].
  boot_cases mode tt tt tt; repeat split; reflexivity.
Qed.

End Start.

Section Run.

Context {R : Resolver}.
Local Open Scope Z_scope.

Lemma run_app_not_started config env forever o (w : World) o1 e :
  run_app_start config env o = (o1, BootError e) ->
  run_app config env forever o w = (o1, w, Failed e).
Proof. intro H. unfold run_app. rewrite H. reflexivity. Qed.

Lemma run_app_started config env forever o (w : World) o1 o2 :
  run_app_start config env o = (o1, Booted tt) ->
  warn_headless config o1 = (o2, Booted tt) ->
  run_app config env forever o w
  = (o2, fst (run_app_once forever w), Ran (snd (run_app_once forever w))).
Proof.
  intros H1 H2. unfold run_app. rewrite H1, H2.
  unfold run_app_once, shutdown_and_close.
  match goal with |- (let (_, _) := ?x in _) = _ => destruct x end.
  reflexivity.
Qed.

Lemma ready_start (config : Config) (env : Env) :
  match run_app_start config env (ready config) with
  | (o1, BootError e) =>
      daemon_bit config && String.eqb (platform env) "linux"
        && is_Some (linux_import env) = true /\
      (exists msg, e = ImportError msg) /\
      filter is_listener (effects o1) = []
  | (o1, Booted _) =>
      daemon_bit config && String.eqb (platform env) "linux"
        && is_Some (linux_import env) = false /\
      snd (warn_headless config o1) = Booted tt
  end.
Proof.
  destruct config as [mode lan dev], env as [plat mac lin].
  boot_cases mode plat mac lin;
    repeat split; try reflexivity; eexists; reflexivity.
Qed.

(** X19. [run_app] on the object that [create_app] and [init_app] built.
    In daemon mode on Linux, when the import of the Linux integration
    fails, the exception leaves [run_app] before the [try] statement: no
    listener is started and the [finally] clause does not run, so the
    session is not dumped and the player is not stopped.  In every other
    case [run_app] treats the loop exactly as [run_app_once] treats its
    future: a [KeyboardInterrupt] is swallowed and the shutdown sequence
    runs once on every way out. *)
Theorem run_app_outcome (config : Config) (env : Env)
    (forever : M unit) (w : World) :
  let run := run_app config env forever (ready config) w in
  if daemon_bit config && String.eqb (platform env) "linux"
     && is_Some (linux_import env)
  then
    snd (fst run) = w /\
    (exists msg, snd run = Failed (ImportError msg)) /\
    filter is_listener (effects (fst (fst run))) = []
  else
    snd (fst run) = fst (run_app_once forever w) /\
    snd run = Ran (snd (run_app_once forever w)).
Proof.
  cbv zeta. pose proof (ready_start config env) as H.
  destruct (run_app_start config env (ready config))
    as [o1 [[]|e]] eqn:E.
  - destruct H as (Hc & Hw). rewrite Hc.
    destruct (warn_headless config o1) as [o2 [[]|e]] eqn:E2;
      [|discriminate].
    rewrite (run_app_started _ _ _ _ _ _ _ E E2). split; reflexivity.
  - destruct H as (Hc & (msg & ->) & Hl). rewrite Hc.
    rewrite (run_app_not_started _ _ _ _ _ _ _ E).
    split; [reflexivity|]. split; [now exists msg | exact Hl].
Qed.

End Run.

(** ** The further properties on concrete sessions *)

Import Cases.

Lemma load_state_accepts_dump_witness :
  dump_state session = (fst (dump_state session), Ok tt) /\
  state_file (with_file (encode (snapshot session (Some "provider://X/42")
                                   refs42_43)) fresh)
  = state_file (fst (dump_state session)) /\
  exists w3 lines,
    load_state (with_file (encode (snapshot session (Some "provider://X/42")
                                     refs42_43)) fresh) = (w3, Ok tt) /\
    playlist_songs w3 = resolved lines /\
    (length (playlist_songs w3) <= 2)%nat.
Proof.
  assert (H1 : dump_state session = (fst (dump_state session), Ok tt))
    by (vm_compute; reflexivity).
  assert (H2 : state_file
                 (with_file (encode (snapshot session
                                       (Some "provider://X/42") refs42_43))
                    fresh)
               = state_file (fst (dump_state session)))
    by (vm_compute; reflexivity).
  split; [exact H1|]. split; [exact H2|].
  destruct (load_state_accepts_dump _ _ _ H1 H2)
    as (w3 & lines & Hrun & _ & Hsongs & Hlen & _).
  exists w3, lines.
  split; [exact Hrun|]. split; [exact Hsongs | exact Hlen].
Defined.


Lemma dump_state_twice_witness :
  dump_state session = (fst (dump_state session), Ok tt) /\
  dump_state (fst (dump_state session))
  = (fst (dump_state (fst (dump_state session))), Ok tt) /\
  state_file (fst (dump_state (fst (dump_state session))))
  = state_file (fst (dump_state session)).
Proof.
  assert (H1 : dump_state session = (fst (dump_state session), Ok tt))
    by (vm_compute; reflexivity).
  assert (H2 : dump_state (fst (dump_state session))
               = (fst (dump_state (fst (dump_state session))), Ok tt))
    by (vm_compute; reflexivity).
  split; [exact H1|]. split; [exact H2|].
  exact (dump_state_twice _ _ _ H1 H2).
Defined.

Lemma load_state_reads_five_keys_witness :
  (forall k, In k read_keys ->
             getitem scenario k = getitem scenario_with_state k) /\
  load_state_else scenario fresh = load_state_else scenario_with_state fresh.
Proof.
  assert (H : forall k, In k read_keys ->
                        getitem scenario k = getitem scenario_with_state k).
  { intros k Hk. simpl in Hk.
    destruct Hk as [<-|[<-|[<-|[<-|[<-|[]]]]]]; reflexivity. }
  split; [exact H|].
  exact (load_state_reads_five_keys scenario scenario_with_state fresh H).
Defined.

Lemma load_state_rejects_non_object_witness :
  state_file (with_file (encode array_document) fresh)
  = Some (encode array_document) /\
  loads (encode array_document) = Some array_document /\
  is_object array_document = false /\
  exists msg,
    load_state (with_file (encode array_document) fresh)
    = (with_file (encode array_document) fresh, Raise (Exn TypeError msg)).
Proof.
  repeat (split; [reflexivity|]).
  exact (load_state_rejects_non_object
           (with_file (encode array_document) fresh)
           (encode array_document) array_document
           eq_refl eq_refl eq_refl).
Defined.

Lemma load_state_invalid_mode_witness :
  loads (encode scenario_bad_mode) = Some scenario_bad_mode /\
  getitem scenario_bad_mode "volume" = Ok (JNum 50) /\
  PlaybackMode_of (JNum 7)
  = Raise (Exn ValueError "not a valid PlaybackMode") /\
  load_state (with_file (encode scenario_bad_mode) fresh)
  = (set_player_volume 50 (with_file (encode scenario_bad_mode) fresh),
     Raise (Exn ValueError "not a valid PlaybackMode")).
Proof.
  repeat (split; [reflexivity|]).
  apply (load_state_invalid_mode
           (with_file (encode scenario_bad_mode) fresh)
           (encode scenario_bad_mode) scenario_bad_mode 50
           (Exn ValueError "not a valid PlaybackMode")
           eq_refl eq_refl eq_refl).
  right. exists (JNum 7). split; reflexivity.
Defined.

Lemma load_state_missing_position_witness :
  loads (encode scenario_no_position) = Some scenario_no_position /\
  getitem scenario_no_position "position" = Raise (Exn KeyError "position") /\
  exists w',
    load_state (with_file (encode scenario_no_position) fresh)
    = (w', Raise (Exn KeyError "position")) /\
    playlist_songs w' = [song42; song43] /\
    media_about_to_changed w' = [before_media_change_of song42] /\
    events w' = [EvShowPlayerPlaylist; EvPause].
Proof.
  split; [reflexivity|]. split; [reflexivity|].
  exact (load_state_missing_position
           (with_file (encode scenario_no_position) fresh)
           (encode scenario_no_position) scenario_no_position
           (8 # 10) (JNum 1) sequential (Some "provider://X/42") refs42_43
           (Exn KeyError "position")
           eq_refl eq_refl eq_refl eq_refl eq_refl eq_refl eq_refl eq_refl).
Defined.

Lemma hook_among_receivers_witness :
  media_about_to_changed hooked
  = [foreign_receiver 1] ++ before_media_change_of song42
      :: [foreign_receiver 2] /\
  exists w',
    media_transition next_song hooked = (w', Ok tt) /\
    events w' = [EvForeign 1; EvSetPlayRange None; EvResume; EvForeign 2] /\
    media_about_to_changed w' = [foreign_receiver 1; foreign_receiver 2].
Proof.
  split; [reflexivity|].
  apply (proj1 (@hook_among_receivers resolver song42 next_song hooked
                  [foreign_receiver 1] [foreign_receiver 2] eq_refl
                  ltac:(repeat constructor) ltac:(repeat constructor))).
  left. discriminate.
Defined.

Lemma run_app_once_shutdown_failure_witness :
  ret tt local_session = (local_session, Ok tt) /\
  _shutdown_app local_session
  = (local_session,
     Raise (Exn NotReversible "provider cannot export a reference")) /\
  run_app_once (ret tt) local_session
  = (local_session,
     Raise (Exn NotReversible "provider cannot export a reference")).
Proof.
  assert (H : _shutdown_app local_session
              = (local_session,
                 Raise (Exn NotReversible
                          "provider cannot export a reference")))
    by (vm_compute; reflexivity).
  split; [reflexivity|]. split; [exact H|].
  exact (run_app_once_shutdown_failure (ret tt) local_session local_session
           local_session (Ok tt) _ eq_refl H).
Defined.

